(** * Deep-equality engine of [homework-2.ts]: a shallow embedding

    The program compares two JavaScript values structurally.  A list of
    comparators (primitive, array, object, plus any registered ones) is
    searched for the first whose [canHandle] accepts the left operand, and a
    [WeakSet] of already visited composite values breaks cycles.

    JavaScript composites are references into a heap, so values are modelled
    as primitives or locations, and the arrays and plain objects live in a
    finite map from locations.  The comparison never mutates that heap; the
    only mutable state is the engine itself ([comparators] and [visited]).

    Scope of the model: arrays may have holes, objects are plain data (own
    enumerable string-keyed properties, no accessors, no proxies), and a
    comparator's [canHandle] is a pure test.  A [compare] method may only
    return a boolean or call back into [context.deepEqual].  Recursion depth
    is bounded by a fuel argument; the termination theorem shows how much
    fuel is always enough. *)

From Stdlib Require Import ZArith Floats.SpecFloat.
From stdpp Require Import base option list strings gmap sets.

(** ** Values *)

Definition loc := nat.

(** The result of JavaScript's [typeof]. *)
Inductive jstype :=
| TUndefined | TObject | TBoolean | TNumber | TString | TSymbol | TBigint | TFunction.

(** [TValue] of the source.  Numbers are IEEE-754 doubles ([spec_float]),
    symbols and functions are known by their identity only, and arrays and
    objects are references. *)
Inductive value :=
| VUndefined
| VNull
| VBoolean (b : bool)
| VNumber (x : spec_float)
| VString (s : string)
| VSymbol (id : nat)
| VBigInt (z : Z)
| VFunction (id : nat)
| VRef (l : loc).

(** A heap cell: an array (its slots in index order, [None] for a hole: an
    index below [length] that holds nothing, as in [[ , 5]] or after
    [delete a[0]]) or a plain object (own enumerable string-keyed
    properties, in [Object.keys] order). *)
Inductive obj :=
| OArray (items : list (option value))
| OObject (props : list (string * value)).

(** Every reference denotes an object: locations outside the finite map
    denote the empty object [{}]. *)
Definition deref (h : gmap loc obj) (l : loc) : obj :=
  default (OObject []) (h !! l).

Definition typeof (v : value) : jstype :=
  match v with
  | VUndefined => TUndefined
  | VNull => TObject
  | VBoolean _ => TBoolean
  | VNumber _ => TNumber
  | VString _ => TString
  | VSymbol _ => TSymbol
  | VBigInt _ => TBigint
  | VFunction _ => TFunction
  | VRef _ => TObject
  end.

Definition jstype_eqb (s t : jstype) : bool :=
  match s, t with
  | TUndefined, TUndefined | TObject, TObject | TBoolean, TBoolean
  | TNumber, TNumber | TString, TString | TSymbol, TSymbol
  | TBigint, TBigint | TFunction, TFunction => true
  | _, _ => false
  end.

(** [a === b]: same type and same value, no coercion.  On numbers this is
    IEEE equality ([NaN] differs from itself, the two zeros are equal); on
    symbols, functions and references it is identity. *)
Definition strict_eq (a b : value) : bool :=
  match a, b with
  | VUndefined, VUndefined => true
  | VNull, VNull => true
  | VBoolean x, VBoolean y => Bool.eqb x y
  | VNumber x, VNumber y => SFeqb x y
  | VString x, VString y => String.eqb x y
  | VSymbol x, VSymbol y => Nat.eqb x y
  | VBigInt x, VBigInt y => Z.eqb x y
  | VFunction x, VFunction y => Nat.eqb x y
  | VRef x, VRef y => Nat.eqb x y
  | _, _ => false
  end.

(** [v == null]: true for [null] and [undefined] only. *)
Definition loose_eq_null (v : value) : bool :=
  match v with
  | VUndefined | VNull => true
  | _ => false
  end.

(** [Array.isArray(v)]. *)
Definition isArray (h : gmap loc obj) (v : value) : bool :=
  match v with
  | VRef l => match deref h l with OArray _ => true | OObject _ => false end
  | _ => false
  end.

(** [Object.keys(o)] and [o[key]] on a plain object. *)
Definition keys (props : list (string * value)) : list string := props.*1.

Fixpoint get (props : list (string * value)) (key : string) : value :=
  match props with
  | [] => VUndefined
  | (k, v) :: rest => if String.eqb k key then v else get rest key
  end.

(** [b[index]] on an array: [undefined] at a hole and past the end. *)
Definition at_index (items : list (option value)) (index : nat) : value :=
  match items !! index with
  | Some (Some item) => item
  | _ => VUndefined
  end.

(** The integer [z] as a double. *)
Definition num (z : Z) : spec_float := binary_normalize 53 1024 z 0 false.

Definition NaN : value := VNumber S754_nan.

(** ** Comparators *)

Inductive error :=
| NoComparatorFound (t : jstype)
| TypeError.

(** What a [compare] method does with its [context]: it returns a boolean,
    or calls [context.deepEqual(a, b)] and goes on with the answer.  [Fail]
    is the [TypeError] of a method applied outside the type its signature
    declares; the engine never gets there, see [builtin_compare_safe]. *)
Inductive prog :=
| Return (r : bool)
| Call (a b : value) (k : bool -> prog)
| Fail.

Fixpoint bind (p : prog) (k : bool -> prog) : prog :=
  match p with
  | Return r => k r
  | Call a b k' => Call a b (fun r => bind (k' r) k)
  | Fail => Fail
  end.

(** [xs.every(f)]: left to right, stopping at the first [false]. *)
Fixpoint every {A} (f : A -> prog) (xs : list A) : prog :=
  match xs with
  | [] => Return true
  | x :: rest => bind (f x) (fun r => if r then every f rest else Return false)
  end.

(** [p && q] where only [q] may call the engine. *)
Definition and_then (p : bool) (q : prog) : prog :=
  if p then q else Return false.

(** The callback arguments of [a.every((item, index) => ...)]: [every]
    visits the indices in order and skips the holes. *)
Fixpoint entries_from (index : nat) (items : list (option value)) : list (nat * value) :=
  match items with
  | [] => []
  | Some item :: rest => (index, item) :: entries_from (S index) rest
  | None :: rest => entries_from (S index) rest
  end.

Definition entries (items : list (option value)) : list (nat * value) :=
  entries_from 0 items.

(** [IComparator]. *)
Record IComparator := {
  canHandle : gmap loc obj -> value -> bool;
  compare : gmap loc obj -> value -> value -> prog;
}.

(** The slots of an array and the properties of a plain object. *)
Definition items (h : gmap loc obj) (v : value) : list (option value) :=
  match v with
  | VRef l => match deref h l with OArray xs => xs | OObject _ => [] end
  | _ => []
  end.

Definition props (h : gmap loc obj) (v : value) : list (string * value) :=
  match v with
  | VRef l => match deref h l with OObject ps => ps | OArray _ => [] end
  | _ => []
  end.

(** [value != null && typeof value === 'object' && !Array.isArray(value)]. *)
Definition isPlainObject (h : gmap loc obj) (value : value) : bool :=
  negb (loose_eq_null value) && jstype_eqb (typeof value) TObject && negb (isArray h value).

Definition PrimitiveComparator : IComparator := {|
  canHandle _ value := loose_eq_null value || negb (jstype_eqb (typeof value) TObject);
  compare _ a b := Return (strict_eq a b);
|}.

Definition ArrayComparator : IComparator := {|
  canHandle h value := isArray h value;
  compare h a b :=
    if negb (isArray h a) then Fail
    else if negb (isArray h b) || negb (length (items h a) =? length (items h b))
    then Return false
    else every (fun '(index, item) => Call item (at_index (items h b) index) Return)
               (entries (items h a));
|}.

Definition ObjectComparator : IComparator := {|
  canHandle h value := isPlainObject h value;
  compare h a b :=
    if negb (isPlainObject h a) then Fail
    else if negb (jstype_eqb (typeof b) TObject) || loose_eq_null b || isArray h b
    then Return false
    else
      let keysA := keys (props h a) in
      let keysB := keys (props h b) in
      if negb (length keysA =? length keysB) then Return false
      else every (fun key => and_then (bool_decide (key ∈ keysB))
                               (Call (get (props h a) key) (get (props h b) key) Return))
                 keysA;
|}.

(** ** The engine *)

Record DeepEqualEngine := {
  comparators : list IComparator;
  visited : gset loc;
}.

Inductive outcome :=
| Ret (r : bool)
| Throw (e : error)
| OutOfFuel.

(** [new DeepEqualEngine()]. *)
Definition new_DeepEqualEngine : DeepEqualEngine := {|
  comparators := [PrimitiveComparator; ArrayComparator; ObjectComparator];
  visited := ∅;
|}.

(** [this.comparators.find(comp => comp.canHandle(value))]. *)
Definition findComparator (h : gmap loc obj) (value : value) (this : DeepEqualEngine)
  : option IComparator :=
  find (fun comp => canHandle comp h value) (comparators this).

(** [this.comparators.unshift(comparator)]. *)
Definition addComparator (comparator : IComparator) (this : DeepEqualEngine)
  : DeepEqualEngine :=
  {| comparators := comparator :: comparators this; visited := visited this |}.

(** The cycle check at the head of [deepEqual].  [typeof a === 'object' &&
    a !== null] holds exactly of references.  [inl r]: the early [return];
    [inr this']: fall through with [a] recorded. *)
Definition guard (a b : value) (this : DeepEqualEngine) : bool + DeepEqualEngine :=
  match a with
  | VRef l =>
    if decide (l ∈ visited this) then inl (strict_eq a b)
    else inr {| comparators := comparators this; visited := {[l]} ∪ visited this |}
  | _ => inr this
  end.

(** Running a [compare] body against the engine; an exception of a nested
    call propagates. *)
Fixpoint run (deepEqual : value -> value -> DeepEqualEngine -> outcome * DeepEqualEngine)
    (p : prog) (this : DeepEqualEngine) : outcome * DeepEqualEngine :=
  match p with
  | Return r => (Ret r, this)
  | Fail => (Throw TypeError, this)
  | Call a b k =>
    match deepEqual a b this with
    | (Ret r, this') => run deepEqual (k r) this'
    | (o, this') => (o, this')
    end
  end.

(** [DeepEqualEngine.deepEqual]; [fuel] bounds the depth of nested calls. *)
Fixpoint deepEqual (fuel : nat) (h : gmap loc obj) (a b : value) (this : DeepEqualEngine)
  : outcome * DeepEqualEngine :=
  match fuel with
  | O => (OutOfFuel, this)
  | S fuel' =>
    match guard a b this with
    | inl r => (Ret r, this)
    | inr this' =>
      match findComparator h a this' with
      | None => (Throw (NoComparatorFound (typeof a)), this')
      | Some comparator => run (deepEqual fuel' h) (compare comparator h a b) this'
      end
    end
  end.

(** ** The sample values of the source's demonstration *)

Definition int (z : Z) : value := VNumber (num z).

(** An array literal without holes. *)
Definition array (xs : list value) : obj := OArray (Some <$> xs).

(** [[1, 2, 3]] at 0, [[1, 2, 3]] at 1, [[3, 2, 1]] at 2;
    [obj1] at 3 (its [b] at 4, its [c] at 5), [obj2] at 6 (7, 8),
    [obj3] at 9 (10, 11); the cyclic [obj4] at 12.  Then, from the
    specification, [{a: 1, b: 2}] at 13 and [{b: 2, a: 1}] at 14. *)
Definition demo_heap : gmap loc obj :=
  list_to_map [
    (0, array [int 1; int 2; int 3]);
    (1, array [int 1; int 2; int 3]);
    (2, array [int 3; int 2; int 1]);
    (3, OObject [("a", int 1); ("b", VRef 4); ("c", VRef 5)]);
    (4, array [int 2; int 3]);
    (5, OObject [("d", int 4)]);
    (6, OObject [("a", int 1); ("b", VRef 7); ("c", VRef 8)]);
    (7, array [int 2; int 3]);
    (8, OObject [("d", int 4)]);
    (9, OObject [("d", int 4); ("e", VRef 10); ("f", VRef 11)]);
    (10, array [int 3; int 1; int 2]);
    (11, OObject [("g", int 8)]);
    (12, OObject [("a", int 313); ("children", VRef 12)]);
    (13, OObject [("a", int 1); ("b", int 2)]);
    (14, OObject [("b", int 2); ("a", int 1)])
  ]%string.

(** ** Specification vocabulary *)

(** The type of [deepEqual] once fuel and heap are fixed. *)
Definition rec_fun : Type :=
  value -> value -> DeepEqualEngine -> outcome * DeepEqualEngine.

(** [this'] is a later state of the engine [this]. *)
Definition engine_le (this this' : DeepEqualEngine) : Prop :=
  comparators this' = comparators this ∧ visited this ⊆ visited this'.

(** The engine holds exactly the three comparators of the constructor (its
    guard set may be in any state). *)
Definition builtin (this : DeepEqualEngine) : Prop :=
  comparators this = comparators new_DeepEqualEngine.

(** The engine was built by the constructor and any number of
    [addComparator] calls. *)
Definition constructed (this : DeepEqualEngine) : Prop :=
  ∃ customs, comparators this = customs ++ comparators new_DeepEqualEngine.

(** The three shapes of the specification. *)
Inductive shape := Primitive | Sequence | Mapping.

Definition shape_of (h : gmap loc obj) (v : value) : shape :=
  match v with
  | VRef l => match deref h l with OArray _ => Sequence | OObject _ => Mapping end
  | _ => Primitive
  end.

Definition comparator_for (s : shape) : IComparator :=
  match s with
  | Primitive => PrimitiveComparator
  | Sequence => ArrayComparator
  | Mapping => ObjectComparator
  end.

(** The number of allocated objects not yet in the guard set. *)
Definition unvisited (h : gmap loc obj) (this : DeepEqualEngine) : nat :=
  size (dom h ∖ visited this).

(** The values stored directly in a heap cell. *)
Definition children (o : obj) : list value :=
  match o with
  | OArray xs => omap id xs
  | OObject ps => ps.*2
  end.

(** [reach h v w]: [w] is [v] or occurs somewhere inside it. *)
Inductive reach (h : gmap loc obj) : value -> value -> Prop :=
| reach_here v : reach h v v
| reach_child l c w : c ∈ children (deref h l) -> reach h c w -> reach h (VRef l) w.

(** A registered comparator for the examples: it takes every string, and
    finds any two strings equal. *)
Definition AnyStringComparator : IComparator := {|
  canHandle _ value := jstype_eqb (typeof value) TString;
  compare _ a b := Return (jstype_eqb (typeof b) TString);
|}.

(** [visited.add(l)]. *)
Definition record_visit (l : loc) (this : DeepEqualEngine) : DeepEqualEngine :=
  {| comparators := comparators this; visited := {[l]} ∪ visited this |}.

(** [context.deepEqual(a, b)] as the whole callback body. *)
Definition call_pair (p : value * value) : prog := Call p.1 p.2 Return.

(** [all_true rec pairs this this']: the calls [rec a b] for the pairs, made
    one after the other from the engine state [this], all return [true] and
    leave the engine in state [this']. *)
Inductive all_true (rec : rec_fun) :
    list (value * value) -> DeepEqualEngine -> DeepEqualEngine -> Prop :=
| all_true_nil this : all_true rec [] this this
| all_true_cons a b rest this this1 this' :
    rec a b this = (Ret true, this1) ->
    all_true rec rest this1 this' ->
    all_true rec ((a, b) :: rest) this this'.

(** [v[0]], ..., [v[length - 1]] as reading them gives them: [undefined] at
    a hole. *)
Definition elements (h : gmap loc obj) (v : value) : list value :=
  default VUndefined <$> items h v.

(** The array [v] has no hole. *)
Definition no_holes (h : gmap loc obj) (v : value) : Prop :=
  Forall is_Some (items h v).

(** No array inside [v], [v] included, has a hole. *)
Definition hole_free (h : gmap loc obj) (v : value) : Prop :=
  ∀ l, reach h v (VRef l) -> no_holes h (VRef l).

(** [tree h v fp]: the cells inside [v] are exactly [fp], and each of them
    is met once only on the way down from [v]: no cycle, no cell shared
    between two places. *)
Inductive tree (h : gmap loc obj) : value -> gset loc -> Prop :=
| tree_primitive v : (∀ l, v ≠ VRef l) -> tree h v ∅
| tree_ref l fp :
    trees h (children (deref h l)) fp -> l ∉ fp -> tree h (VRef l) ({[l]} ∪ fp)
with trees (h : gmap loc obj) : list value -> gset loc -> Prop :=
| trees_nil : trees h [] ∅
| trees_cons v vs fp fps :
    tree h v fp -> trees h vs fps -> fp ## fps -> trees h (v :: vs) (fp ∪ fps).

(** [acyclic h v]: walking down from [v] always ends; cells may be shared. *)
#[warnings="-register-all"]
Inductive acyclic (h : gmap loc obj) : value -> Prop :=
| acyclic_primitive v : (∀ l, v ≠ VRef l) -> acyclic h v
| acyclic_ref l : Forall (acyclic h) (children (deref h l)) -> acyclic h (VRef l).

(** No object has two properties of one name, as in JavaScript. *)
Definition distinct_keys (h : gmap loc obj) : Prop :=
  ∀ l, NoDup (keys (props h (VRef l))).

(** One round of [every]: a test that may stop the loop, then a nested
    call. *)
Definition step_prog (step : bool * (value * value)) : prog :=
  and_then step.1 (call_pair step.2).

(** *** The comparison without the guard set

    The rules of the three comparators alone, as the specification gives
    them in its table of variants: the same [compare] bodies, run against a
    context that only recurses. *)
Fixpoint run_pure (rec : value -> value -> outcome) (p : prog) : outcome :=
  match p with
  | Return r => Ret r
  | Fail => Throw TypeError
  | Call a b k =>
    match rec a b with
    | Ret r => run_pure rec (k r)
    | o => o
    end
  end.

Fixpoint structEqual (fuel : nat) (h : gmap loc obj) (a b : value) : outcome :=
  match fuel with
  | O => OutOfFuel
  | S fuel' =>
    run_pure (structEqual fuel' h) (compare (comparator_for (shape_of h a)) h a b)
  end.

(** A shared cell: [o = {x: 1}] at 0 and [[o, o]] at 1; then [{x: 1}] at 2,
    another [{x: 1}] at 3 and the array of these two at 4. *)
Definition sharing_heap : gmap loc obj :=
  list_to_map [
    (0, OObject [("x", int 1)]);
    (1, array [VRef 0; VRef 0]);
    (2, OObject [("x", int 1)]);
    (3, OObject [("x", int 1)]);
    (4, array [VRef 2; VRef 3])
  ]%string.

(** One object under two keys: [o = {x: 1}] at 0, [{p: o, q: o}] at 1 and
    [{q: o, p: o}] at 2; then another [{x: 1}] at 3 and [{p: o, q: o'}] with
    that other object [o'] at 4. *)
Definition key_order_heap : gmap loc obj :=
  list_to_map [
    (0, OObject [("x", int 1)]);
    (1, OObject [("p", VRef 0); ("q", VRef 0)]);
    (2, OObject [("q", VRef 0); ("p", VRef 0)]);
    (3, OObject [("x", int 1)]);
    (4, OObject [("p", VRef 0); ("q", VRef 3)])
  ]%string.

(** Arrays with holes: [[ , ]] at 0 and [[5]] at 1; then [[1, undefined]] at
    2, [[1, , ]] at 3 and [[1, 99]] at 4. *)
Definition sparse_heap : gmap loc obj :=
  list_to_map [
    (0, OArray [None]);
    (1, array [int 5]);
    (2, array [int 1; VUndefined]);
    (3, OArray [Some (int 1); None]);
    (4, array [int 1; int 99])
  ].

(** A registered comparator for the examples: it takes every value, and
    finds any two equal. *)
Definition AcceptAllComparator : IComparator := {|
  canHandle _ _ := true;
  compare _ _ _ := Return true;
|}.

(** The rounds of the loop of the array and of the object comparator. *)
Definition array_steps (h : gmap loc obj) (a b : value) : list (bool * (value * value)) :=
  (fun '(index, item) => (true, (item, at_index (items h b) index)))
    <$> entries (items h a).

Definition object_steps (h : gmap loc obj) (a b : value) : list (bool * (value * value)) :=
  (fun key => (bool_decide (key ∈ keys (props h b)),
               (get (props h a) key, get (props h b) key))) <$> keys (props h a).

(** ** Vocabulary for the further properties *)

(** [similar n h a b]: [a] and [b] agree down to depth [n].  Primitives
    agree when [a === b]; two composites agree when they are one reference,
    or are both arrays of one length with agreeing elements in order (each
    index read as [v[index]] reads it), or are both plain objects with the
    same keys and agreeing values at each key. *)
Fixpoint similar (n : nat) (h : gmap loc obj) (a b : value) : Prop :=
  match n with
  | O => True
  | S n' =>
    match shape_of h a with
    | Primitive => strict_eq a b = true
    | Sequence =>
      a = b ∨ (shape_of h b = Sequence
               ∧ Forall2 (similar n' h) (elements h a) (elements h b))
    | Mapping =>
      a = b ∨ (shape_of h b = Mapping
               ∧ keys (props h a) ≡ₚ keys (props h b)
               ∧ ∀ key, key ∈ keys (props h a) ->
                   similar n' h (get (props h a) key) (get (props h b) key))
    end
  end.

(** A comparator that accepts nothing. *)
Definition NeverComparator : IComparator := {|
  canHandle _ _ := false;
  compare _ _ _ := Return true;
|}.

(** ** The demonstration of the source, replayed *)

Example demo_arrays_equal :
  (deepEqual 5 demo_heap (VRef 0) (VRef 1) new_DeepEqualEngine).1 = Ret true.
Proof. vm_compute. reflexivity. Qed.

Example demo_arrays_reversed :
  (deepEqual 5 demo_heap (VRef 0) (VRef 2) new_DeepEqualEngine).1 = Ret false.
Proof. vm_compute. reflexivity. Qed.

Example demo_nested_equal :
  (deepEqual 5 demo_heap (VRef 3) (VRef 6) new_DeepEqualEngine).1 = Ret true.
Proof. vm_compute. reflexivity. Qed.

Example demo_nested_differ :
  (deepEqual 5 demo_heap (VRef 3) (VRef 9) new_DeepEqualEngine).1 = Ret false.
Proof. vm_compute. reflexivity. Qed.

Example demo_cycle :
  (deepEqual 5 demo_heap (VRef 12) (VRef 12) new_DeepEqualEngine).1 = Ret true.
Proof. vm_compute. reflexivity. Qed.

Example demo_null_undefined :
  (deepEqual 5 demo_heap VNull VUndefined new_DeepEqualEngine).1 = Ret false.
Proof. vm_compute. reflexivity. Qed.

(** ** Reasoning principles for [run] *)

Lemma run_bind (rec : rec_fun) p k this :
  run rec (bind p k) this =
  match run rec p this with
  | (Ret r, this') => run rec (k r) this'
  | other => other
  end.
Proof.
  revert this. induction p as [r|a b k' IH|]; intros this; simpl; try done.
  destruct (rec a b this) as [[r| |] this']; simpl; auto.
Qed.

Lemma run_every_cons {A} (rec : rec_fun) (f : A -> prog) x xs this :
  run rec (every f (x :: xs)) this =
  match run rec (f x) this with
  | (Ret true, this') => run rec (every f xs) this'
  | other => other
  end.
Proof.
  simpl. rewrite run_bind.
  destruct (run rec (f x) this) as [[[|]| |] this']; done.
Qed.

Lemma run_call (rec : rec_fun) a b this :
  run rec (Call a b Return) this = rec a b this.
Proof. simpl. by destruct (rec a b this) as [[r| |] this']. Qed.

(** ** The guard set only grows, the comparator list is never touched *)

#[local] Instance engine_le_refl : Reflexive engine_le.
Proof. by intros this; split. Qed.

#[local] Instance engine_le_trans : Transitive engine_le.
Proof. intros x y z [H1 H2] [H3 H4]. split; [congruence | set_solver]. Qed.

Lemma guard_inr a b this this' :
  guard a b this = inr this' -> engine_le this this'.
Proof.
  destruct a; simpl; try (intros [= <-]; done).
  case_decide; [done|]. intros [= <-]. split; simpl; [done | set_solver].
Qed.

Lemma run_le (rec : rec_fun) p this :
  (∀ a b e, engine_le e (rec a b e).2) ->
  engine_le this (run rec p this).2.
Proof.
  intros Hrec. revert this.
  induction p as [r|a b k IH|]; intros this; simpl; try done.
  pose proof (Hrec a b this) as Hle.
  destruct (rec a b this) as [[r| |] this']; simpl in *; try done.
  etrans; [exact Hle | apply IH].
Qed.

Lemma deepEqual_le fuel h a b this :
  engine_le this (deepEqual fuel h a b this).2.
Proof.
  revert a b this. induction fuel as [|fuel IH]; intros a b this; simpl; [done|].
  destruct (guard a b this) as [r|this'] eqn:Hg; simpl; [done|].
  apply guard_inr in Hg.
  destruct (findComparator h a this') as [c|]; simpl; [|done].
  etrans; [exact Hg|]. apply run_le. intros; apply IH.
Qed.

(** A reference is what [typeof a === 'object' && a !== null] selects. *)
Lemma composite_iff a :
  jstype_eqb (typeof a) TObject && negb (strict_eq a VNull) = true ↔ ∃ l, a = VRef l.
Proof.
  split.
  - destruct a; simpl; try done. eauto.
  - by intros [l ->].
Qed.

Lemma guard_hit l b this :
  l ∈ visited this -> guard (VRef l) b this = inl (strict_eq (VRef l) b).
Proof. intros Hin. simpl. by rewrite decide_True. Qed.

Lemma guard_primitive a b this :
  (∀ l, a ≠ VRef l) -> guard a b this = inr this.
Proof. intros Hp. destruct a; try done. by destruct (Hp l). Qed.

Lemma guard_records l b this this' :
  guard (VRef l) b this = inr this' -> l ∈ visited this'.
Proof. simpl. case_decide; [done|]. intros [= <-]. simpl. set_solver. Qed.

(** ** More fuel never changes an answer *)

Lemma run_more (rec rec' : rec_fun) p this o this' :
  (∀ a b e o e', rec a b e = (o, e') -> o ≠ OutOfFuel -> rec' a b e = (o, e')) ->
  run rec p this = (o, this') -> o ≠ OutOfFuel -> run rec' p this = (o, this').
Proof.
  intros Hrec. revert this.
  induction p as [r|a b k IH|]; intros this; simpl; try done.
  destruct (rec a b this) as [o1 e1] eqn:Hr.
  destruct o1 as [r| |].
  - rewrite (Hrec _ _ _ _ _ Hr) by done. apply IH.
  - intros [= <- <-] _. by rewrite (Hrec _ _ _ _ _ Hr).
  - intros [= <- <-]. done.
Qed.

Lemma deepEqual_more fuel fuel' h a b this o this' :
  deepEqual fuel h a b this = (o, this') -> o ≠ OutOfFuel -> fuel ≤ fuel' ->
  deepEqual fuel' h a b this = (o, this').
Proof.
  revert fuel' a b this o this'.
  induction fuel as [|fuel IH]; intros fuel' a b this o this'; simpl.
  - intros [= <- <-]. done.
  - intros Hrun Ho Hle. destruct fuel' as [|fuel']; [lia|]. simpl.
    destruct (guard a b this) as [r|e1]; [done|].
    destruct (findComparator h a e1) as [c|]; [|done].
    eapply run_more; [|exact Hrun|done].
    intros. eapply IH; eauto. lia.
Qed.

(** ** Dispatch in the engine of the constructor *)

Lemma shape_of_isArray h a : isArray h a = true ↔ shape_of h a = Sequence.
Proof. destruct a; simpl; try done. by destruct (deref h l). Qed.

Lemma shape_of_isPlainObject h a : isPlainObject h a = true ↔ shape_of h a = Mapping.
Proof.
  unfold isPlainObject. destruct a; simpl; try done. by destruct (deref h l).
Qed.

Lemma builtin_canHandle h a : canHandle (comparator_for (shape_of h a)) h a = true.
Proof. destruct a; simpl; try done. by destruct (deref h l) eqn:E; simpl; unfold isPlainObject; simpl; rewrite E. Qed.

Lemma builtin_dispatch h a this :
  builtin this -> findComparator h a this = Some (comparator_for (shape_of h a)).
Proof.
  unfold builtin, findComparator. intros ->. simpl.
  destruct a; simpl; try done.
  unfold isPlainObject; simpl.
  by destruct (deref h l).
Qed.

Lemma builtin_le this this' : builtin this -> engine_le this this' -> builtin this'.
Proof. unfold builtin. intros Hb [Hc _]. congruence. Qed.

Lemma deepEqual_builtin fuel h a b this :
  builtin this ->
  deepEqual (S fuel) h a b this =
  match guard a b this with
  | inl r => (Ret r, this)
  | inr this' =>
    run (deepEqual fuel h) (compare (comparator_for (shape_of h a)) h a b) this'
  end.
Proof.
  intros Hb. simpl. destruct (guard a b this) as [r|this'] eqn:Hg; [done|].
  rewrite builtin_dispatch; [done|]. eauto using builtin_le, guard_inr.
Qed.

Lemma compare_array h a b :
  shape_of h a = Sequence ->
  compare ArrayComparator h a b =
  if negb (isArray h b) || negb (length (items h a) =? length (items h b))
  then Return false
  else every (fun '(index, item) => Call item (at_index (items h b) index) Return)
             (entries (items h a)).
Proof. intros Hs. apply shape_of_isArray in Hs. simpl. by rewrite Hs. Qed.

Lemma compare_object h a b :
  shape_of h a = Mapping ->
  compare ObjectComparator h a b =
  if negb (jstype_eqb (typeof b) TObject) || loose_eq_null b || isArray h b
  then Return false
  else if negb (length (keys (props h a)) =? length (keys (props h b)))
  then Return false
  else every (fun key => and_then (bool_decide (key ∈ keys (props h b)))
                           (Call (get (props h a) key) (get (props h b) key) Return))
             (keys (props h a)).
Proof. intros Hs. apply shape_of_isPlainObject in Hs. simpl. by rewrite Hs. Qed.

(** The dead branch of the typed [compare] methods is never taken after
    [canHandle]. *)
Lemma builtin_compare_safe h a b :
  compare (comparator_for (shape_of h a)) h a b ≠ Fail.
Proof.
  destruct (shape_of h a) eqn:Hs; simpl.
  - done.
  - apply shape_of_isArray in Hs. rewrite Hs. simpl.
    destruct (_ || _); [done|].
    destruct (entries (items h a)) as [|[i x] xs]; done.
  - apply shape_of_isPlainObject in Hs. rewrite Hs. simpl.
    destruct (_ || _); [done|]. destruct (negb _); [done|].
    destruct (keys (props h a)) as [|k ks]; [done|]. simpl.
    unfold and_then. by destruct (bool_decide _).
Qed.

(** ** Termination *)

Lemma run_every_total {A} (rec : rec_fun) (f : A -> prog) xs
    (I : DeepEqualEngine -> Prop) :
  (∀ x e, x ∈ xs -> I e -> ∃ r e', run rec (f x) e = (Ret r, e') ∧ I e') ->
  ∀ e, I e -> ∃ r e', run rec (every f xs) e = (Ret r, e') ∧ I e'.
Proof.
  induction xs as [|x xs IH]; intros Hf e He.
  - simpl. eauto.
  - rewrite run_every_cons.
    destruct (Hf x e) as (r & e' & -> & He'); [set_solver|done|].
    destruct r; [|eauto].
    apply IH; [|done]. intros. apply Hf; [set_solver|done].
Qed.

Lemma unvisited_le h this this' :
  engine_le this this' -> unvisited h this' ≤ unvisited h this.
Proof. intros [_ Hv]. apply subseteq_size. set_solver. Qed.

Lemma unvisited_guard h l b this this' :
  is_Some (h !! l) -> guard (VRef l) b this = inr this' ->
  unvisited h this' < unvisited h this.
Proof.
  intros Hl. simpl. case_decide as Hin; [done|]. intros [= <-].
  unfold unvisited. simpl. apply subset_size.
  apply elem_of_dom in Hl. set_solver.
Qed.

Lemma deref_unallocated h l : h !! l = None -> deref h l = OObject [].
Proof. unfold deref. by intros ->. Qed.

Lemma props_unallocated h l : h !! l = None -> props h (VRef l) = [].
Proof. intros E. simpl. by rewrite deref_unallocated. Qed.

Lemma deepEqual_total fuel h a b this :
  builtin this -> unvisited h this < fuel ->
  ∃ r this', deepEqual fuel h a b this = (Ret r, this').
Proof.
  revert a b this. induction fuel as [|fuel IH]; intros a b this Hb Hlt; [lia|].
  rewrite deepEqual_builtin by done.
  destruct (guard a b this) as [r|this1] eqn:Hg; [eauto|].
  pose proof (guard_inr _ _ _ _ Hg) as Hle.
  assert (builtin this1) as Hb1 by eauto using builtin_le.
  destruct (shape_of h a) eqn:Hs; simpl comparator_for.
  - simpl. eauto.
  - rewrite compare_array by done.
    destruct a as [| | | | | | | |l]; try done.
    assert (is_Some (h !! l)) as Hl.
    { destruct (h !! l) eqn:E; [done|]. simpl in Hs. by rewrite deref_unallocated in Hs. }
    pose proof (unvisited_guard _ _ _ _ _ Hl Hg) as Hdec.
    destruct (_ || _); [simpl; eauto|].
    edestruct (run_every_total (deepEqual fuel h)
      (fun '(index, item) => Call item (at_index (items h b) index) Return)
      (entries (items h (VRef l)))
      (fun e => engine_le this1 e)) as (r & e' & Hrun & _); [|reflexivity|eauto].
    intros [i x] e _ He. rewrite run_call.
    destruct (IH x (at_index (items h b) i) e) as (r & e' & Hr).
    { eauto using builtin_le. }
    { pose proof (unvisited_le h _ _ He). lia. }
    exists r, e'. split; [done|].
    etrans; [exact He|]. pose proof (deepEqual_le fuel h x (at_index (items h b) i) e) as H.
    by rewrite Hr in H.
  - rewrite compare_object by done.
    destruct a as [| | | | | | | |l]; try done.
    destruct (_ || _); [simpl; eauto|].
    destruct (negb _); [simpl; eauto|].
    destruct (h !! l) as [o|] eqn:E.
    + pose proof (unvisited_guard _ _ _ _ _ (mk_is_Some _ _ E) Hg) as Hdec.
      edestruct (run_every_total (deepEqual fuel h)
        (fun key => and_then (bool_decide (key ∈ keys (props h b)))
                      (Call (get (props h (VRef l)) key) (get (props h b) key) Return))
        (keys (props h (VRef l)))
        (fun e => engine_le this1 e)) as (r & e' & Hrun & _); [|reflexivity|eauto].
      intros key e _ He. unfold and_then.
      destruct (bool_decide _); [|simpl; eauto].
      rewrite run_call.
      destruct (IH (get (props h (VRef l)) key) (get (props h b) key) e) as (r & e' & Hr).
      { eauto using builtin_le. }
      { pose proof (unvisited_le h _ _ He). lia. }
      exists r, e'. split; [done|].
      etrans; [exact He|].
      pose proof (deepEqual_le fuel h (get (props h (VRef l)) key) (get (props h b) key) e) as H.
      by rewrite Hr in H.
    + rewrite (props_unallocated _ _ E). simpl. eauto.
Qed.

(** ** The cycle guard *)

(** C1.  A call [deepEqual(a, b)] whose left operand [a] is a composite
    already in the guard set returns [a === b] and leaves the engine as it
    was, whatever comparators are registered: none is consulted.  This is
    the case for every composite that was the left operand of an earlier
    call, nested or top-level: a call records its composite left operand,
    and no call ever removes an entry. *)
Theorem guard_short_circuit h l :
  (∀ fuel b this, l ∈ visited this ->
     deepEqual (S fuel) h (VRef l) b this = (Ret (strict_eq (VRef l) b), this))
  ∧ (∀ fuel b this, l ∈ visited (deepEqual (S fuel) h (VRef l) b this).2)
  ∧ (∀ fuel a b this, l ∈ visited this -> l ∈ visited (deepEqual fuel h a b this).2).
Proof.
  split; [|split].
  - intros fuel b this Hin. cbn [deepEqual]. by rewrite guard_hit.
  - intros fuel b this. cbn [deepEqual].
    destruct (guard (VRef l) b this) as [r|this'] eqn:Hg.
    + simpl in Hg. case_decide; done.
    + pose proof (guard_records _ _ _ _ Hg) as Hin.
      destruct (findComparator h (VRef l) this') as [c|]; [|done].
      assert (engine_le this' (run (deepEqual fuel h) (compare c h (VRef l) b) this').2)
        as [_ Hsub]; [|set_solver].
      apply run_le. intros. apply deepEqual_le.
  - intros fuel a b this Hin.
    destruct (deepEqual_le fuel h a b this) as [_ Hsub]. set_solver.
Qed.

Lemma guard_short_circuit_witness :
  deepEqual 1 demo_heap (VRef 0) (VRef 1)
    {| comparators := []; visited := {[0]} |}
  = (Ret false, {| comparators := []; visited := {[0]} |}).
Proof.
  apply (proj1 (guard_short_circuit demo_heap 0) 0 (VRef 1)).
  simpl. by apply elem_of_singleton.
Defined.

(** C2.  In the engine of the constructor [deepEqual(a, b)] returns a
    boolean for every heap, cyclic or not, every pair of values and every
    state of the guard set: nested calls never go deeper than the number of
    allocated objects still outside the guard set, plus one.  For the
    self-referential [x = {a: 313}; x.children = x] the answer of
    [deepEqual(x, x)] on a fresh engine is [true]. *)
Theorem deepEqual_terminates h a b this :
  builtin this ->
  (∃ r this', ∀ fuel, unvisited h this < fuel ->
     deepEqual fuel h a b this = (Ret r, this'))
  ∧ (∀ fuel, 2 ≤ fuel ->
     (deepEqual fuel demo_heap (VRef 12) (VRef 12) new_DeepEqualEngine).1 = Ret true).
Proof.
  intros Hb. split.
  - destruct (deepEqual_total (S (unvisited h this)) h a b this) as (r & this' & Hr);
      [done|lia|].
    exists r, this'. intros fuel Hlt.
    eapply deepEqual_more; [exact Hr|done|lia].
  - intros fuel Hle.
    destruct (deepEqual 2 demo_heap (VRef 12) (VRef 12) new_DeepEqualEngine)
      as [o e] eqn:Hr.
    assert (o = Ret true) as -> by (by vm_compute in Hr; injection Hr as <- _).
    by rewrite (deepEqual_more _ _ _ _ _ _ _ _ Hr) by done.
Qed.

Lemma deepEqual_terminates_witness :
  ∃ r this', ∀ fuel, unvisited demo_heap new_DeepEqualEngine < fuel ->
    deepEqual fuel demo_heap (VRef 12) (VRef 3) new_DeepEqualEngine = (Ret r, this').
Proof.
  exact (proj1 (deepEqual_terminates demo_heap (VRef 12) (VRef 3)
                  new_DeepEqualEngine eq_refl)).
Defined.

(** ** Reflexivity *)

Lemma SFeqb_refl x : x ≠ S754_nan -> SFeqb x x = true.
Proof.
  intros Hx. unfold SFeqb, SFcompare.
  destruct x as [s|s| |s m e]; try done; destruct s; try done;
    rewrite Z.compare_refl; fold (Pos.compare m m); by rewrite Pos.compare_refl.
Qed.

Lemma strict_eq_refl v : v ≠ NaN -> strict_eq v v = true.
Proof.
  destruct v; simpl; intros Hv; try done.
  - by destruct b.
  - apply SFeqb_refl. intros ->. done.
  - apply String.eqb_refl.
  - apply Nat.eqb_refl.
  - apply Z.eqb_refl.
  - apply Nat.eqb_refl.
  - apply Nat.eqb_refl.
Qed.

Lemma entries_from_spec k (slots : list (option value)) i x :
  (i, x) ∈ entries_from k slots ↔ ∃ j, i = k + j ∧ slots !! j = Some (Some x).
Proof.
  revert k. induction slots as [|[y|] slots IH]; intros k; simpl.
  - split; [by intros ?%elem_of_nil|by intros (j & _ & ?)].
  - rewrite elem_of_cons, IH. split.
    + intros [[= -> ->]|(j & -> & Hj)].
      * exists 0. split; [lia|done].
      * exists (S j). split; [lia|done].
    + intros ([|j] & -> & Hj); simpl in Hj.
      * left. injection Hj as ->. f_equal. lia.
      * right. exists j. split; [lia|done].
  - rewrite IH. split.
    + intros (j & -> & Hj). exists (S j). split; [lia|done].
    + intros ([|j] & -> & Hj); simpl in Hj; [done|].
      exists j. split; [lia|done].
Qed.

Lemma entries_lookup (slots : list (option value)) i x :
  (i, x) ∈ entries slots -> slots !! i = Some (Some x).
Proof. by intros (j & -> & Hj)%entries_from_spec. Qed.

Lemma entries_lookup_2 (slots : list (option value)) i x :
  slots !! i = Some (Some x) -> (i, x) ∈ entries slots.
Proof. intros Hi. apply entries_from_spec. by exists i. Qed.

Lemma entries_at_index (slots : list (option value)) i x :
  (i, x) ∈ entries slots -> at_index slots i = x.
Proof. intros Hl%entries_lookup. unfold at_index. by rewrite Hl. Qed.

Lemma get_elem_of ps key : key ∈ keys ps -> get ps key ∈ ps.*2.
Proof.
  unfold keys. induction ps as [|[k v] ps IH]; simpl; [by intros ?%elem_of_nil|].
  destruct (String.eqb_spec k key) as [->|Hne]; [set_solver|].
  intros [?|?]%elem_of_cons; [done|]. right. by apply IH.
Qed.

Lemma items_children h l : shape_of h (VRef l) = Sequence ->
  omap id (items h (VRef l)) = children (deref h l).
Proof. simpl. by destruct (deref h l). Qed.

Lemma slot_child h l i x :
  items h (VRef l) !! i = Some (Some x) -> x ∈ children (deref h l).
Proof.
  simpl. destruct (deref h l) as [slots|ps]; simpl; [|done].
  intros Hi. apply list_elem_of_omap. exists (Some x).
  split; [by eapply list_elem_of_lookup_2|done].
Qed.

Lemma props_children h l : shape_of h (VRef l) = Mapping ->
  (props h (VRef l)).*2 = children (deref h l).
Proof. simpl. by destruct (deref h l). Qed.

Lemma mapping_checks h b :
  negb (jstype_eqb (typeof b) TObject) || loose_eq_null b || isArray h b = false
  ↔ shape_of h b = Mapping.
Proof. destruct b; simpl; try done. by destruct (deref h l). Qed.

Lemma run_every_inv {A} (rec : rec_fun) (f : A -> prog) xs
    (I : DeepEqualEngine -> Prop) (Q : outcome -> Prop) :
  (∀ x e, x ∈ xs -> I e ->
     I (run rec (f x) e).2 ∧ ((run rec (f x) e).1 = Ret true ∨ Q (run rec (f x) e).1)) ->
  ∀ e, I e ->
     I (run rec (every f xs) e).2
     ∧ ((run rec (every f xs) e).1 = Ret true ∨ Q (run rec (every f xs) e).1).
Proof.
  induction xs as [|x xs IH]; intros Hf e He; [by split; [|left]|].
  rewrite run_every_cons.
  destruct (Hf x e) as [HI Hx]; [by left|done|].
  destruct (run rec (f x) e) as [o e']; simpl in *.
  destruct o as [[|]| |]; [|by split; [|destruct Hx; [done|right]]..].
  apply IH; [|done]. intros. apply Hf; [by right|done].
Qed.

Lemma deepEqual_builtin_le fuel h a b this :
  builtin this -> builtin (deepEqual fuel h a b this).2.
Proof. intros Hb. eapply builtin_le; [done|]. apply deepEqual_le. Qed.

Lemma deepEqual_refl_or_fuel fuel h v this :
  builtin this -> ¬ reach h v NaN ->
  (deepEqual fuel h v v this).1 = Ret true ∨ (deepEqual fuel h v v this).1 = OutOfFuel.
Proof.
  revert v this. induction fuel as [|fuel IH]; intros v this Hb Hnan; [by right|].
  rewrite deepEqual_builtin by done.
  destruct (guard v v this) as [r|this1] eqn:Hg.
  { destruct v; simpl in Hg; try done. case_decide; [|done].
    injection Hg as <-. left. simpl. by rewrite Nat.eqb_refl. }
  assert (builtin this1) as Hb1 by eauto using builtin_le, guard_inr.
  destruct (shape_of h v) eqn:Hs; simpl comparator_for.
  - left. simpl. f_equal. apply strict_eq_refl. intros ->. apply Hnan. constructor.
  - rewrite compare_array by done.
    rewrite (proj2 (shape_of_isArray h v) Hs), Nat.eqb_refl. simpl.
    destruct v as [| | | | | | | |l]; try done.
    eapply (run_every_inv _ _ _ builtin (fun o => o = OutOfFuel)); [|done].
    intros [i x] e Hin He.
    rewrite run_call, (entries_at_index _ _ _ Hin).
    split; [by apply deepEqual_builtin_le|].
    apply IH; [done|].
    intros Hr. apply Hnan. eapply reach_child; [|exact Hr].
    eapply slot_child. by apply entries_lookup.
  - rewrite compare_object by done.
    destruct v as [| | | | | | | |l]; try done.
    rewrite (proj2 (mapping_checks h (VRef l)) Hs), Nat.eqb_refl. simpl negb. cbv iota.
    eapply (run_every_inv _ _ _ builtin (fun o => o = OutOfFuel)); [|done].
    intros key e Hin He.
    rewrite bool_decide_eq_true_2 by done. simpl and_then.
    rewrite run_call.
    split; [by apply deepEqual_builtin_le|].
    apply IH; [done|].
    intros Hr. apply Hnan. eapply reach_child; [|exact Hr].
    rewrite <- props_children by done. by apply get_elem_of.
Qed.

Lemma no_NaN_list_to_map (cells : list (loc * obj)) v :
  v ≠ NaN -> Forall (fun cell => NaN ∉ children cell.2) cells ->
  ¬ reach (list_to_map cells) v NaN.
Proof.
  intros Hv Hcells Hr.
  remember NaN as w eqn:Hw. revert Hv.
  induction Hr as [v|l c w Hc Hr IH]; intros Hv; [done|].
  apply IH; try done. intros ->.
  unfold deref in Hc.
  destruct (list_to_map cells !! l) as [o|] eqn:E; simpl in Hc.
  - apply elem_of_list_to_map_2 in E.
    rewrite Forall_forall in Hcells. by apply (Hcells _ E).
  - by apply elem_of_nil in Hc.
Qed.

(** C3, counterexample.  [NaN] is a value, and [deepEqual(NaN, NaN)] on a
    fresh engine is [false] however much fuel the call is given. *)
Lemma reflexivity_fails_on_NaN :
  ¬ (∀ v, ∃ fuel, (deepEqual fuel ∅ v v new_DeepEqualEngine).1 = Ret true).
Proof.
  intros Hrefl. destruct (Hrefl NaN) as [[|fuel] Hf]; simpl in Hf; discriminate.
Qed.

(** C3, amended.  For every value [v] in which no [NaN] occurs, cyclic or
    not, [deepEqual(v, v)] returns [true] in the engine of the constructor,
    fresh or not: primitives by [v === v], composites by comparing their
    parts or, when met again, by the identity short-circuit. *)
Theorem reflexive_without_NaN h v this :
  builtin this -> ¬ reach h v NaN ->
  ∃ this', ∀ fuel, unvisited h this < fuel ->
    deepEqual fuel h v v this = (Ret true, this').
Proof.
  intros Hb Hnan.
  destruct (deepEqual_total (S (unvisited h this)) h v v this) as (r & this' & Hr);
    [done|lia|].
  destruct (deepEqual_refl_or_fuel (S (unvisited h this)) h v this Hb Hnan) as [Ht|Ht];
    rewrite Hr in Ht; simpl in Ht; [|done].
  injection Ht as ->.
  exists this'. intros fuel Hlt. eapply deepEqual_more; [exact Hr|done|lia].
Qed.

Lemma reflexive_without_NaN_witness :
  ∃ this', ∀ fuel, unvisited demo_heap new_DeepEqualEngine < fuel ->
    deepEqual fuel demo_heap (VRef 12) (VRef 12) new_DeepEqualEngine = (Ret true, this').
Proof.
  apply (reflexive_without_NaN demo_heap (VRef 12) new_DeepEqualEngine).
  - reflexivity.
  - apply no_NaN_list_to_map; [done|].
    repeat constructor; simpl; intros Hin;
      repeat (apply elem_of_cons in Hin as [Hin|Hin]; [by vm_compute in Hin|]);
      by apply elem_of_nil in Hin.
Defined.

(** ** Shapes *)

Lemma shape_primitive_iff h a : shape_of h a = Primitive ↔ ∀ l, a ≠ VRef l.
Proof.
  split.
  - intros Hs l ->. simpl in Hs. by destruct (deref h l).
  - intros Hp. destruct a; try done. by destruct (Hp l).
Qed.

Lemma typeof_not_object a : typeof a ≠ TObject -> a ≠ VNull ∧ ∀ l, a ≠ VRef l.
Proof. intros Ht. split; [|intros l]; intros ->; by apply Ht. Qed.

Lemma strict_eq_primitive_ref a l : (∀ l', a ≠ VRef l') -> strict_eq a (VRef l) = false.
Proof. intros Hp. destruct a; try done. by destruct (Hp l0). Qed.

(** C10.  A value whose [typeof] is not ['object'] (so neither [null] nor a
    composite: booleans, numbers, strings, [undefined], and also functions,
    symbols and bigints) is selected by the primitive comparator of the
    constructor's engine, the call returns [a === b], and the engine, in
    particular its guard set, is left as it was.  Two distinct functions
    compare [false], a function compares [true] with itself. *)
Theorem non_objects_compare_by_identity fuel h a b this :
  builtin this -> typeof a ≠ TObject ->
  findComparator h a this = Some PrimitiveComparator
  ∧ deepEqual (S fuel) h a b this = (Ret (strict_eq a b), this)
  ∧ (∀ f g, (deepEqual (S fuel) h (VFunction f) (VFunction g) this).1
            = Ret (bool_decide (f = g))).
Proof.
  intros Hb Ht. apply typeof_not_object in Ht as [_ Hp].
  assert (∀ a' b', (∀ l, a' ≠ VRef l) ->
    deepEqual (S fuel) h a' b' this = (Ret (strict_eq a' b'), this)) as Hcall.
  { intros a' b' Hp'. rewrite deepEqual_builtin, guard_primitive by done.
    by rewrite (proj2 (shape_primitive_iff h a') Hp'). }
  split; [|split].
  - rewrite builtin_dispatch by done.
    by rewrite (proj2 (shape_primitive_iff h a) Hp).
  - by apply Hcall.
  - intros f g. rewrite Hcall by done. simpl. f_equal.
    destruct (Nat.eqb_spec f g) as [->|Hne].
    + by rewrite bool_decide_eq_true_2.
    + by rewrite bool_decide_eq_false_2.
Qed.

Lemma non_objects_compare_by_identity_witness :
  findComparator demo_heap (VSymbol 7) new_DeepEqualEngine = Some PrimitiveComparator
  ∧ deepEqual 1 demo_heap (VSymbol 7) (VBigInt 7) new_DeepEqualEngine
    = (Ret (strict_eq (VSymbol 7) (VBigInt 7)), new_DeepEqualEngine)
  ∧ (∀ f g, (deepEqual 1 demo_heap (VFunction f) (VFunction g) new_DeepEqualEngine).1
            = Ret (bool_decide (f = g))).
Proof.
  apply (non_objects_compare_by_identity 0 demo_heap (VSymbol 7) (VBigInt 7)
           new_DeepEqualEngine).
  - reflexivity.
  - simpl. discriminate.
Defined.

(** C6.  In the engine of the constructor a comparison of two values of
    different shapes (primitive, sequence, mapping) returns [false], in
    either direction and in every state of the guard set; nothing is
    thrown. *)
Theorem cross_shape_is_false fuel h a b this :
  builtin this -> shape_of h a ≠ shape_of h b ->
  (deepEqual (S fuel) h a b this).1 = Ret false.
Proof.
  intros Hb Hs. rewrite deepEqual_builtin by done.
  destruct (guard a b this) as [r|this1] eqn:Hg.
  - destruct a as [| | | | | | | |l]; simpl in Hg; try done.
    case_decide; [|done]. injection Hg as <-. simpl. f_equal.
    destruct b as [| | | | | | | |l']; try done.
    destruct (Nat.eqb_spec l l') as [->|]; done.
  - destruct (shape_of h a) eqn:Ha; simpl comparator_for.
    + simpl. f_equal.
      destruct b as [| | | | | | | |l'].
      1-8: by destruct Hs.
      apply strict_eq_primitive_ref. by apply (shape_primitive_iff h).
    + rewrite compare_array by done.
      destruct (isArray h b) eqn:Hab; [|done].
      apply shape_of_isArray in Hab. congruence.
    + rewrite compare_object by done.
      destruct (_ || _) eqn:Hchk; [done|].
      apply mapping_checks in Hchk. congruence.
Qed.

Lemma cross_shape_is_false_witness :
  (deepEqual 1 demo_heap (VRef 3) (VRef 0) new_DeepEqualEngine).1 = Ret false.
Proof.
  apply (cross_shape_is_false 0 demo_heap (VRef 3) (VRef 0) new_DeepEqualEngine).
  - reflexivity.
  - vm_compute. discriminate.
Defined.

(** ** The missing-comparator error *)

Lemma constructed_le this this' : constructed this -> engine_le this this' -> constructed this'.
Proof. intros [cs Hc] [Heq _]. exists cs. congruence. Qed.

Lemma find_app_l {A} (p : A -> bool) xs ys x :
  find p xs = Some x -> find p (xs ++ ys) = Some x.
Proof.
  induction xs as [|y xs IH]; simpl; [done|]. destruct (p y); auto.
Qed.

Lemma find_app_r {A} (p : A -> bool) xs ys :
  find p xs = None -> find p (xs ++ ys) = find p ys.
Proof.
  induction xs as [|y xs IH]; simpl; [done|]. destruct (p y); [done|auto].
Qed.

Lemma constructed_finds h a this :
  constructed this -> is_Some (findComparator h a this).
Proof.
  intros [cs Hc]. unfold findComparator. rewrite Hc.
  destruct (find (fun comp => canHandle comp h a) cs) as [c|] eqn:E.
  - erewrite find_app_l; done.
  - rewrite find_app_r by done.
    change (is_Some (findComparator h a new_DeepEqualEngine)).
    by rewrite builtin_dispatch.
Qed.

Lemma constructed_no_missing fuel h a b this t :
  constructed this -> (deepEqual fuel h a b this).1 ≠ Throw (NoComparatorFound t).
Proof.
  intros Hc. revert a b this Hc.
  assert (∀ a b this, (constructed this ->
    (deepEqual fuel h a b this).1 ≠ Throw (NoComparatorFound t))) as Hall; [|done].
  induction fuel as [|fuel IH]; intros a b this Hc; simpl; [done|].
  destruct (guard a b this) as [r|this1] eqn:Hg; [done|].
  assert (constructed this1) as Hc1 by eauto using constructed_le, guard_inr.
  destruct (constructed_finds h a this1 Hc1) as [c ->].
  clear Hg. revert Hc1. generalize (compare c h a b). intros p. revert this1.
  induction p as [r|x y k IHp|]; intros this1 Hc1; simpl; try done.
  pose proof (IH x y this1 Hc1) as Hxy.
  pose proof (deepEqual_le fuel h x y this1) as Hle.
  destruct (deepEqual fuel h x y this1) as [[r| |] e]; simpl in *; try done.
  apply IHp. eauto using constructed_le.
Qed.

Lemma builtin_never_throws fuel h a b this e :
  builtin this -> (deepEqual fuel h a b this).1 ≠ Throw e.
Proof.
  intros Hb Hthrow.
  destruct (deepEqual fuel h a b this) as [o this1] eqn:Hrun. simpl in Hthrow. subst o.
  destruct (deepEqual_total (fuel + S (unvisited h this)) h a b this)
    as (r & this2 & Hr); [done|lia|].
  rewrite (deepEqual_more _ (fuel + S (unvisited h this)) _ _ _ _ _ _ Hrun) in Hr;
    [done|done|lia].
Qed.

(** C7.  [deepEqual] throws the missing-comparator error exactly when no
    registered comparator accepts the left operand.  The engines that can be
    built (the constructor followed by any registrations) always hold the
    three built-in comparators, so on them neither side ever holds; the
    branch itself throws with [typeof a] whenever the search comes back
    empty.  In the engine of the constructor every value finds its
    comparator (primitive for anything that is not a reference, array for
    sequences, object for the remaining references), and no call throws
    anything. *)
Theorem missing_comparator_error fuel h a b :
  (∀ this, constructed this ->
     ((∃ t, (deepEqual fuel h a b this).1 = Throw (NoComparatorFound t))
      ↔ findComparator h a this = None))
  ∧ (∀ this this', guard a b this = inr this' -> findComparator h a this' = None ->
     deepEqual (S fuel) h a b this = (Throw (NoComparatorFound (typeof a)), this'))
  ∧ (∀ this, builtin this ->
     findComparator h a this = Some (comparator_for (shape_of h a))
     ∧ canHandle (comparator_for (shape_of h a)) h a = true
     ∧ ∀ e, (deepEqual fuel h a b this).1 ≠ Throw e).
Proof.
  split; [|split].
  - intros this Hc. split.
    + intros [t Ht]. by destruct (constructed_no_missing fuel h a b this t Hc).
    + intros Hnone. destruct (constructed_finds h a this Hc) as [c Hsome]. congruence.
  - intros this this' Hg Hnone. simpl. by rewrite Hg, Hnone.
  - intros this Hb. split; [by apply builtin_dispatch|].
    split; [apply builtin_canHandle|].
    intros e. by apply builtin_never_throws.
Qed.

Lemma missing_comparator_error_witness :
  deepEqual 1 demo_heap (VRef 0) (VRef 1) {| comparators := [PrimitiveComparator]; visited := ∅ |}
  = (Throw (NoComparatorFound TObject),
     {| comparators := [PrimitiveComparator]; visited := {[0]} ∪ ∅ |}).
Proof.
  apply (proj1 (proj2 (missing_comparator_error 0 demo_heap (VRef 0) (VRef 1)))).
  - reflexivity.
  - reflexivity.
Defined.

(** ** Registration *)

Lemma find_first {A} (p : A -> bool) xs x :
  find p xs = Some x ↔
  ∃ pre post, xs = pre ++ x :: post ∧ Forall (fun y => p y = false) pre ∧ p x = true.
Proof.
  split.
  - induction xs as [|y xs IH]; simpl; [done|].
    destruct (p y) eqn:Hy.
    + intros [= ->]. exists [], xs. by repeat split.
    + intros (pre & post & -> & Hpre & Hx)%IH.
      exists (y :: pre), post. repeat split; [|done]. by constructor.
  - intros (pre & post & -> & Hpre & Hx).
    induction Hpre as [|y pre Hy _ IH]; simpl; [by rewrite Hx|by rewrite Hy].
Qed.

(** C8, counterexample.  A comparator [c] that accepts every value and
    answers [true] is registered on a fresh engine and [deepEqual(a, b)] is
    called twice on two distinct arrays.  The first call is dispatched to
    [c] and returns [true].  At the second call [c] still accepts [a], the
    search still finds [c] for [a], and [c.compare(a, b)] would still answer
    [true]; but [a] is in the guard set, so the call returns [a === b],
    which is [false], and [c] is not run. *)
Lemma dispatch_fails_on_guarded_value :
  let c := AcceptAllComparator in
  let a := VRef 0 in
  let b := VRef 1 in
  let this := (deepEqual 1 demo_heap a b (addComparator c new_DeepEqualEngine)).2 in
  canHandle c demo_heap a = true
  ∧ (deepEqual 1 demo_heap a b (addComparator c new_DeepEqualEngine)).1 = Ret true
  ∧ comparators this = c :: comparators new_DeepEqualEngine
  ∧ findComparator demo_heap a this = Some c
  ∧ (∀ fuel, (run (deepEqual fuel demo_heap) (compare c demo_heap a b) this).1 = Ret true)
  ∧ (∀ fuel, (deepEqual (S fuel) demo_heap a b this).1 = Ret false).
Proof.
  split; [done|]. split; [by vm_compute|]. split; [done|]. split; [done|].
  split; intros fuel; [done|].
  cbn [deepEqual]. by vm_compute.
Qed.

(** C8, amended.  [addComparator(c)] puts [c] at the head of the comparator
    list and touches nothing else.  The search returns the first comparator
    of the list, in list order, whose [canHandle] accepts the value; so
    after the registration every value [c] accepts is found at [c], before
    the built-in comparators and anything registered earlier, and a value
    [c] rejects is searched for as before.  Whenever [deepEqual] gets past
    its guard, it runs the [compare] of the comparator so found, and it
    gets past the guard for every value that is not an object or array
    already in the guard set; a registered comparator for strings thus
    replaces the built-in strict equality. *)
Theorem registration_gives_priority c this h v :
  comparators (addComparator c this) = c :: comparators this
  ∧ visited (addComparator c this) = visited this
  ∧ (canHandle c h v = true -> findComparator h v (addComparator c this) = Some c)
  ∧ (canHandle c h v = false ->
     findComparator h v (addComparator c this) = findComparator h v this)
  ∧ (∀ c', findComparator h v this = Some c' ↔
       ∃ pre post, comparators this = pre ++ c' :: post
         ∧ Forall (fun x => canHandle x h v = false) pre ∧ canHandle c' h v = true)
  ∧ (∀ fuel b this1, canHandle c h v = true ->
       guard v b (addComparator c this) = inr this1 ->
       deepEqual (S fuel) h v b (addComparator c this)
       = run (deepEqual fuel h) (compare c h v b) this1)
  ∧ (∀ b, (∀ l, v = VRef l -> l ∉ visited this) ->
       ∃ this1, guard v b (addComparator c this) = inr this1)
  ∧ (deepEqual 1 h (VString "abc") (VString "ABC") new_DeepEqualEngine).1 = Ret false
  ∧ (deepEqual 1 h (VString "abc") (VString "ABC")
       (addComparator AnyStringComparator new_DeepEqualEngine)).1 = Ret true.
Proof.
  assert (∀ e e', engine_le e e' -> findComparator h v e' = findComparator h v e)
    as Hfind.
  { intros e e' [Hc _]. unfold findComparator. by rewrite Hc. }
  split; [done|]. split; [done|].
  split; [unfold findComparator; simpl; by intros ->|].
  split; [unfold findComparator; simpl; by intros ->|].
  split; [intros c'; apply (find_first (fun comp => canHandle comp h v))|].
  split; [|split; [|done]].
  - intros fuel b this1 Hc Hg. cbn [deepEqual]. rewrite Hg.
    rewrite (Hfind _ _ (guard_inr _ _ _ _ Hg)).
    unfold findComparator. simpl. by rewrite Hc.
  - intros b Hv. destruct v as [| | | | | | | |l]; simpl; eauto.
    rewrite decide_False by (by apply Hv). eauto.
Qed.

Lemma registration_gives_priority_witness :
  findComparator demo_heap (VString "abc")
    (addComparator AnyStringComparator new_DeepEqualEngine) = Some AnyStringComparator.
Proof.
  refine (proj1 (proj2 (proj2 (registration_gives_priority AnyStringComparator
            new_DeepEqualEngine demo_heap (VString "abc")))) _).
  reflexivity.
Defined.

(** ** The array and object comparators *)

Lemma every_ext {A} (f g : A -> prog) xs :
  (∀ x, x ∈ xs -> f x = g x) -> every f xs = every g xs.
Proof.
  induction xs as [|x xs IH]; intros Hfg; simpl; [done|].
  rewrite Hfg by (by left). rewrite IH; [done|]. intros. apply Hfg. by right.
Qed.

Lemma every_fmap {A B} (f : B -> prog) (g : A -> B) xs :
  every f (g <$> xs) = every (f ∘ g) xs.
Proof. induction xs as [|x xs IH]; csimpl; [done|]. by rewrite IH. Qed.

Lemma every_entries (sa sb : list (option value)) :
  every (fun '(index, item) => Call item (at_index sb index) Return) (entries sa)
  = every call_pair ((fun '(index, item) => (item, at_index sb index)) <$> entries sa).
Proof. rewrite every_fmap. apply every_ext. by intros [i x] _. Qed.

(** Without holes on the left, [every] meets each index: the pairs it
    compares are the elements in order against what reading gives. *)
Lemma dense_pairs_from k (sa sb : list (option value)) :
  Forall is_Some sa -> k + length sa ≤ length sb ->
  (fun '(index, item) => (item, at_index sb index)) <$> entries_from k sa
  = zip (default VUndefined <$> sa) (default VUndefined <$> drop k sb).
Proof.
  intros Hsa. revert k. induction Hsa as [|slot sa [x ->] _ IH]; intros k Hlen; [done|].
  simpl in Hlen. csimpl.
  destruct (lookup_lt_is_Some_2 sb k) as [y Hy]; [lia|].
  rewrite (drop_S _ _ _ Hy). csimpl. f_equal.
  - unfold at_index. rewrite Hy. by destruct y.
  - apply IH. lia.
Qed.

Lemma dense_pairs h a b :
  no_holes h a -> length (items h a) = length (items h b) ->
  (fun '(index, item) => (item, at_index (items h b) index)) <$> entries (items h a)
  = zip (elements h a) (elements h b).
Proof.
  intros Ha Hlen. unfold entries, elements.
  rewrite (dense_pairs_from 0 _ (items h b)) by (done || lia). by rewrite drop_0.
Qed.

Lemma run_every_pairs_true (rec : rec_fun) pairs this this' :
  run rec (every call_pair pairs) this = (Ret true, this') ↔ all_true rec pairs this this'.
Proof.
  revert this. induction pairs as [|[a b] pairs IH]; intros this.
  - simpl. split; [intros [= <-]; constructor|]. by inversion 1.
  - rewrite run_every_cons. unfold call_pair at 1. rewrite run_call. simpl.
    split.
    + destruct (rec a b this) as [[[|]| |] this1] eqn:Hab; try done.
      intros Hrest%IH. econstructor; eauto.
    + inversion 1 as [|? ? ? ? this1 ? Hab Hrest]; subst.
      rewrite Hab. by apply IH.
Qed.

Lemma run_every_pairs_false (rec : rec_fun) pairs this this' :
  run rec (every call_pair pairs) this = (Ret false, this') ↔
  ∃ i x y this1, pairs !! i = Some (x, y)
    ∧ all_true rec (take i pairs) this this1
    ∧ rec x y this1 = (Ret false, this').
Proof.
  revert this. induction pairs as [|[a b] pairs IH]; intros this.
  - simpl. split; [done|]. by intros (i & x & y & this1 & Hl & _).
  - rewrite run_every_cons. unfold call_pair at 1. rewrite run_call. simpl.
    split.
    + destruct (rec a b this) as [[[|]| |] this1] eqn:Hab; try done.
      * intros (i & x & y & this2 & Hl & Hpre & Hxy)%IH.
        exists (S i), x, y, this2. repeat split; [done| |done].
        simpl. econstructor; eauto.
      * intros [= <-]. exists 0, a, b, this. repeat split; [constructor|done].
    + intros (i & x & y & this1 & Hl & Hpre & Hxy).
      destruct i as [|i]; simpl in *.
      * injection Hl as -> ->. inversion Hpre; subst. by rewrite Hxy.
      * inversion Hpre as [|? ? ? ? this2 ? Hab Hrest]; subst. rewrite Hab.
        apply IH. eauto 10.
Qed.

Lemma guard_miss l b this :
  l ∉ visited this -> guard (VRef l) b this = inr (record_visit l this).
Proof. intros Hl. simpl. by rewrite decide_False. Qed.

Lemma findComparator_le h a this this' :
  engine_le this this' -> findComparator h a this' = findComparator h a this.
Proof. intros [Hc _]. unfold findComparator. by rewrite Hc. Qed.

Lemma find_accepts h a this c :
  findComparator h a this = Some c -> canHandle c h a = true.
Proof. intros (pre & post & _ & _ & Hc)%find_first. done. Qed.

Lemma array_accepts h a this :
  findComparator h a this = Some ArrayComparator -> shape_of h a = Sequence.
Proof. intros Hf%find_accepts. by apply shape_of_isArray. Qed.

Lemma object_accepts h a this :
  findComparator h a this = Some ObjectComparator -> shape_of h a = Mapping.
Proof. intros Hf%find_accepts. by apply shape_of_isPlainObject. Qed.

Lemma strict_eq_ref l b : strict_eq (VRef l) b = true -> b = VRef l.
Proof.
  destruct b as [| | | | | | | |l']; simpl; try done.
  by intros ->%Nat.eqb_eq.
Qed.

(** C5, counterexample.  Two inputs.  [deepEqual([1,2,3], [1,2,3])] is made
    twice on one engine; the second call finds its left operand in the guard
    set and answers [false], although both operands are arrays of one length
    and every index-aligned pair compares [true].  And on a fresh engine
    [deepEqual([ , ], [5])] answers [true], because [every] skips the hole,
    although both are arrays of length one and the pair at index 0,
    [undefined] against [5], compares [false]. *)
Lemma array_rule_fails_on_guard_and_on_holes :
  (let a := VRef 0 in
   let b := VRef 1 in
   let this := (deepEqual 2 demo_heap a b new_DeepEqualEngine).2 in
   shape_of demo_heap a = Sequence ∧ shape_of demo_heap b = Sequence
   ∧ length (items demo_heap a) = length (items demo_heap b)
   ∧ all_true (deepEqual 1 demo_heap)
       (zip (elements demo_heap a) (elements demo_heap b)) this this
   ∧ (deepEqual 2 demo_heap a b this).1 = Ret false)
  ∧ (let a := VRef 0 in
     let b := VRef 1 in
     shape_of sparse_heap a = Sequence ∧ shape_of sparse_heap b = Sequence
     ∧ length (items sparse_heap a) = length (items sparse_heap b)
     ∧ zip (elements sparse_heap a) (elements sparse_heap b) = [(VUndefined, int 5)]
     ∧ (deepEqual 1 sparse_heap VUndefined (int 5)
          (record_visit 0 new_DeepEqualEngine)).1 = Ret false
     ∧ (deepEqual 2 sparse_heap a b new_DeepEqualEngine).1 = Ret true).
Proof.
  split.
  - repeat split.
    repeat (econstructor; [vm_compute; reflexivity|]).
    vm_compute. constructor.
  - repeat split.
Qed.

(** C5, amended.  Let [a] be an array that the engine hands to the array
    comparator, as the engine of the constructor does.  [deepEqual(a, b)] is
    [false] whenever [b] is not an array or the lengths differ.  When [a] has
    no holes and is not yet in the guard set, and [b] is an array of the same
    length, the call returns [true] exactly when the nested calls on the
    index-aligned pairs [(a[i], b[i])], made from left to right, all return
    [true], and [false] exactly when one of them returns [false] after all
    those before it returned [true]; the pairs after it are not compared.
    So on a fresh engine [deepEqual([1,2,3], [1,2,3])] is [true] and
    [deepEqual([1,2,3], [3,2,1])] is [false]. *)
Theorem array_comparison fuel h la b this :
  findComparator h (VRef la) this = Some ArrayComparator ->
  let a := VRef la in
  let pairs := zip (elements h a) (elements h b) in
  (shape_of h b ≠ Sequence ∨ length (items h a) ≠ length (items h b) ->
     (deepEqual (S fuel) h a b this).1 = Ret false)
  ∧ (la ∉ visited this -> no_holes h a -> shape_of h b = Sequence ->
     length (items h a) = length (items h b) ->
     (∀ this', deepEqual (S fuel) h a b this = (Ret true, this') ↔
        all_true (deepEqual fuel h) pairs (record_visit la this) this')
     ∧ (∀ this', deepEqual (S fuel) h a b this = (Ret false, this') ↔
        ∃ i x y this1, pairs !! i = Some (x, y)
          ∧ all_true (deepEqual fuel h) (take i pairs) (record_visit la this) this1
          ∧ deepEqual fuel h x y this1 = (Ret false, this')))
  ∧ (deepEqual 2 demo_heap (VRef 0) (VRef 1) new_DeepEqualEngine).1 = Ret true
  ∧ (deepEqual 2 demo_heap (VRef 0) (VRef 2) new_DeepEqualEngine).1 = Ret false.
Proof.
  intros Hfind a pairs. subst a pairs.
  pose proof (array_accepts _ _ _ Hfind) as Ha.
  split; [|split; [|by split; vm_compute]].
  - intros Hb. cbn [deepEqual].
    destruct (guard (VRef la) b this) as [r|this1] eqn:Hg.
    + simpl in Hg. case_decide; [|done]. injection Hg as <-. simpl. f_equal.
      apply not_true_is_false. intros ->%strict_eq_ref.
      by destruct Hb.
    + rewrite (findComparator_le _ _ _ _ (guard_inr _ _ _ _ Hg)), Hfind.
      rewrite compare_array by done.
      destruct (isArray h b) eqn:Hab; [|done]. cbn [negb orb].
      apply shape_of_isArray in Hab.
      destruct (Nat.eqb_spec (length (items h (VRef la))) (length (items h b)));
        cbn [negb]; [by destruct Hb|done].
  - intros Hla Hdense Hb Hlen.
    assert (deepEqual (S fuel) h (VRef la) b this
            = run (deepEqual fuel h)
                (every call_pair (zip (elements h (VRef la)) (elements h b)))
                (record_visit la this)) as ->.
    { cbn [deepEqual]. rewrite guard_miss by done.
      rewrite (findComparator_le h (VRef la) this) by (split; simpl; [done|set_solver]).
      rewrite Hfind, compare_array by done.
      rewrite (proj2 (shape_of_isArray h b) Hb), Hlen, Nat.eqb_refl.
      cbn [negb orb]. by rewrite every_entries, dense_pairs. }
    split; intros this'.
    + apply run_every_pairs_true.
    + apply run_every_pairs_false.
Qed.

Lemma array_comparison_witness :
  (deepEqual 1 demo_heap (VRef 4) (VRef 0) new_DeepEqualEngine).1 = Ret false.
Proof.
  refine (proj1 (array_comparison 0 demo_heap 4 (VRef 0) new_DeepEqualEngine _) _).
  - reflexivity.
  - right. vm_compute. lia.
Defined.

Lemma run_every_keys_true (rec : rec_fun) (keysB : list string)
    (fa fb : string -> value) ks this this' :
  run rec (every (fun key => and_then (bool_decide (key ∈ keysB))
                               (Call (fa key) (fb key) Return)) ks) this
  = (Ret true, this')
  ↔ (∀ key, key ∈ ks -> key ∈ keysB)
    ∧ all_true rec ((fun key => (fa key, fb key)) <$> ks) this this'.
Proof.
  revert this. induction ks as [|k ks IH]; intros this.
  - simpl. split.
    + intros [= <-]. split; [by intros ? ?%elem_of_nil|constructor].
    + intros [_ Hall]. by inversion Hall.
  - rewrite run_every_cons. csimpl. unfold and_then at 1.
    destruct (decide (k ∈ keysB)) as [Hk|Hk].
    + rewrite bool_decide_eq_true_2, run_call by done. split.
      * destruct (rec (fa k) (fb k) this) as [[[|]| |] this1] eqn:Hab; try done.
        intros [Hks Hall]%IH. split; [|econstructor; eauto].
        intros key [->|?]%elem_of_cons; auto.
      * intros [Hks Hall].
        inversion Hall as [|? ? ? ? this1 ? Hab Hrest]; subst. rewrite Hab.
        apply IH. split; [|done]. intros. apply Hks. by right.
    + rewrite bool_decide_eq_false_2 by done. simpl. split; [done|].
      intros [Hks _]. destruct Hk. apply Hks. by left.
Qed.

(** C4, counterexample.  Two inputs.  [deepEqual({a: 1, b: 2}, {b: 2, a: 1})]
    is made twice on one engine: the second call finds its left operand in
    the guard set and answers [false], although both operands are plain
    objects with as many keys, every key of the first is a key of the
    second, and the values at every key compare [true].  And the key order
    of the left operand does matter: with [o = {x: 1}] and
    [b = {p: o, q: {x: 1}}], on fresh engines [deepEqual({p: o, q: o}, b)]
    is [false] and [deepEqual({q: o, p: o}, b)] is [true], because [o] is in
    the guard set when it comes up the second time. *)
Lemma object_rule_fails_on_guard_and_on_key_order :
  (let a := VRef 13 in
   let b := VRef 14 in
   let this := (deepEqual 2 demo_heap a b new_DeepEqualEngine).2 in
   shape_of demo_heap a = Mapping ∧ shape_of demo_heap b = Mapping
   ∧ length (keys (props demo_heap a)) = length (keys (props demo_heap b))
   ∧ (∀ key, key ∈ keys (props demo_heap a) -> key ∈ keys (props demo_heap b))
   ∧ all_true (deepEqual 1 demo_heap)
       ((fun key => (get (props demo_heap a) key, get (props demo_heap b) key))
          <$> keys (props demo_heap a)) this this
   ∧ (deepEqual 2 demo_heap a b this).1 = Ret false)
  ∧ (let a := VRef 1 in
     let a' := VRef 2 in
     let b := VRef 4 in
     keys (props key_order_heap a) ≡ₚ keys (props key_order_heap a')
     ∧ (∀ key, get (props key_order_heap a) key = get (props key_order_heap a') key)
     ∧ (deepEqual 3 key_order_heap a b new_DeepEqualEngine).1 = Ret false
     ∧ (deepEqual 3 key_order_heap a' b new_DeepEqualEngine).1 = Ret true).
Proof.
  split.
  - repeat split.
    + vm_compute. set_solver.
    + repeat (econstructor; [vm_compute; reflexivity|]).
      vm_compute. constructor.
  - split; [|split; [|by split; vm_compute]].
    + change (keys (props key_order_heap (VRef 1))) with ["p"; "q"]%string.
      change (keys (props key_order_heap (VRef 2))) with ["q"; "p"]%string.
      apply perm_swap.
    + intros key.
      change (props key_order_heap (VRef 1)) with [("p", VRef 0); ("q", VRef 0)]%string.
      change (props key_order_heap (VRef 2)) with [("q", VRef 0); ("p", VRef 0)]%string.
      cbn [get]. by repeat case_match.
Qed.

Lemma object_dispatch fuel h la b this :
  findComparator h (VRef la) this = Some ObjectComparator -> la ∉ visited this ->
  deepEqual (S fuel) h (VRef la) b this
  = run (deepEqual fuel h) (compare ObjectComparator h (VRef la) b) (record_visit la this).
Proof.
  intros Hfind Hla. cbn [deepEqual]. rewrite guard_miss by done.
  rewrite (findComparator_le h (VRef la) this) by (split; simpl; [done|set_solver]).
  by rewrite Hfind.
Qed.

(** C4, amended.  Let [a] be a plain object that the engine hands to the
    object comparator, as the engine of the constructor does.
    [deepEqual(a, b)] is [false] whenever [b] is [null] or [undefined], is
    not of type object, or is an array, and whenever [a] and [b] have
    different numbers of keys.  When [a] is not yet in the guard set and [b]
    is a plain object with as many keys, the call returns [true] exactly
    when every key of [a] is a key of [b] and the nested calls on the values
    at the keys of [a], made in the key order of [a], all return [true].  So
    the key order of [b] is irrelevant: for [a] not yet in the guard set,
    two plain objects [b] and [b'] with the same keys, in whatever order,
    and the same values at them get the same answer; and on a fresh engine
    [deepEqual({a: 1, b: 2}, {b: 2, a: 1})] is [true]. *)
Theorem object_comparison fuel h la b this :
  findComparator h (VRef la) this = Some ObjectComparator ->
  let a := VRef la in
  let pairs := (fun key => (get (props h a) key, get (props h b) key)) <$> keys (props h a) in
  (loose_eq_null b = true ∨ typeof b ≠ TObject ∨ isArray h b = true ->
     (deepEqual (S fuel) h a b this).1 = Ret false)
  ∧ (length (keys (props h a)) ≠ length (keys (props h b)) ->
     (deepEqual (S fuel) h a b this).1 = Ret false)
  ∧ (la ∉ visited this -> shape_of h b = Mapping ->
     length (keys (props h a)) = length (keys (props h b)) ->
     ∀ this', deepEqual (S fuel) h a b this = (Ret true, this') ↔
       (∀ key, key ∈ keys (props h a) -> key ∈ keys (props h b))
       ∧ all_true (deepEqual fuel h) pairs (record_visit la this) this')
  ∧ (la ∉ visited this -> shape_of h b = Mapping ->
     ∀ b', shape_of h b' = Mapping ->
       keys (props h b) ≡ₚ keys (props h b') ->
       (∀ key, key ∈ keys (props h b) -> get (props h b) key = get (props h b') key) ->
       deepEqual (S fuel) h a b' this = deepEqual (S fuel) h a b this)
  ∧ (deepEqual 2 demo_heap (VRef 13) (VRef 14) new_DeepEqualEngine).1 = Ret true.
Proof.
  intros Hfind a pairs. subst a pairs.
  pose proof (object_accepts _ _ _ Hfind) as Ha.
  assert (∀ this1, guard (VRef la) b this = inr this1 ->
    deepEqual (S fuel) h (VRef la) b this
    = run (deepEqual fuel h) (compare ObjectComparator h (VRef la) b) this1) as Hmiss.
  { intros this1 Hg. cbn [deepEqual]. rewrite Hg.
    by rewrite (findComparator_le _ _ _ _ (guard_inr _ _ _ _ Hg)), Hfind. }
  assert (∀ r, guard (VRef la) b this = inl r -> r = true -> b = VRef la) as Hhit.
  { intros r Hg ->. simpl in Hg. case_decide; [|done]. injection Hg as Hg.
    by apply strict_eq_ref. }
  split; [|split; [|split; [|split; [|by vm_compute]]]].
  - intros Hb.
    assert (shape_of h b ≠ Mapping) as Hnb.
    { intros Hm%mapping_checks.
      apply orb_false_iff in Hm as [[Ht Hn]%orb_false_iff Harr].
      destruct Hb as [Hb|[Hb|Hb]]; [congruence| |congruence].
      apply Hb. by destruct (typeof b). }
    destruct (guard (VRef la) b this) as [r|this1] eqn:Hg.
    + cbn [deepEqual]. rewrite Hg. simpl. f_equal.
      apply not_true_is_false. intros Hr. rewrite (Hhit _ eq_refl Hr) in Hnb. done.
    + rewrite (Hmiss _ eq_refl), compare_object by done.
      destruct (_ || _) eqn:Hchk; [done|]. by apply mapping_checks in Hchk.
  - intros Hlen.
    destruct (guard (VRef la) b this) as [r|this1] eqn:Hg.
    + cbn [deepEqual]. rewrite Hg. simpl. f_equal.
      apply not_true_is_false. intros Hr. rewrite (Hhit _ eq_refl Hr) in Hlen. done.
    + rewrite (Hmiss _ eq_refl), compare_object by done.
      destruct (_ || _); [done|].
      destruct (Nat.eqb_spec (length (keys (props h (VRef la))))
                  (length (keys (props h b)))); [done|done].
  - intros Hla Hb Hlen this'.
    rewrite (Hmiss _ (guard_miss _ _ _ Hla)), compare_object by done.
    rewrite (proj2 (mapping_checks h b) Hb), Hlen, Nat.eqb_refl. cbn [negb].
    apply run_every_keys_true.
  - intros Hla Hb b' Hb' Hperm Hget.
    rewrite !object_dispatch, !compare_object by done.
    rewrite (proj2 (mapping_checks h b) Hb), (proj2 (mapping_checks h b') Hb').
    rewrite <- (Permutation_length Hperm).
    destruct (negb _); [done|]. f_equal.
    apply every_ext. intros key _.
    destruct (decide (key ∈ keys (props h b))) as [Hk|Hk].
    + rewrite !bool_decide_eq_true_2, Hget by (done || by rewrite <- Hperm). done.
    + rewrite !bool_decide_eq_false_2 by (done || by rewrite <- Hperm). done.
Qed.

Lemma object_comparison_witness :
  (deepEqual 1 demo_heap (VRef 3) (VRef 13) new_DeepEqualEngine).1 = Ret false.
Proof.
  refine (proj1 (proj2 (object_comparison 0 demo_heap 3 (VRef 13)
                          new_DeepEqualEngine _)) _).
  - reflexivity.
  - vm_compute. lia.
Defined.

(** ** What lies inside a value *)

Lemma reach_trans h a b c : reach h a b -> reach h b c -> reach h a c.
Proof.
  induction 1 as [v|l x w Hx Hr IH]; [done|].
  intros Hc. eapply reach_child; eauto.
Qed.

Lemma slot_reach h a i x :
  items h a !! i = Some (Some x) -> ∀ w, reach h x w -> reach h a w.
Proof.
  destruct a as [| | | | | | | |l]; try done.
  intros Hi w Hw. eapply reach_child; [|exact Hw]. by eapply slot_child.
Qed.

Lemma entry_reach h a i x :
  (i, x) ∈ entries (items h a) -> ∀ w, reach h x w -> reach h a w.
Proof. intros Hi%entries_lookup. by eapply slot_reach. Qed.

Lemma props_reach h a key :
  key ∈ keys (props h a) -> ∀ w, reach h (get (props h a) key) w -> reach h a w.
Proof.
  destruct a as [| | | | | | | |l]; simpl; try by intros ?%elem_of_nil.
  intros Hk w Hw. eapply reach_child; [|exact Hw].
  destruct (deref h l) as [xs|ps]; simpl in *; [by apply elem_of_nil in Hk|].
  by apply get_elem_of.
Qed.

Lemma hole_free_top h a : hole_free h a -> no_holes h a.
Proof.
  intros Ha. destruct a as [| | | | | | | |l]; try by constructor.
  apply Ha. constructor.
Qed.

Lemma hole_free_slot h a i x :
  hole_free h a -> items h a !! i = Some (Some x) -> hole_free h x.
Proof. intros Ha Hi l Hl. apply Ha. by eapply slot_reach. Qed.

Lemma hole_free_prop h a key :
  hole_free h a -> key ∈ keys (props h a) -> hole_free h (get (props h a) key).
Proof. intros Ha Hk l Hl. apply Ha. by eapply props_reach. Qed.

Lemma no_holes_lookup h a i :
  no_holes h a -> i < length (items h a) -> ∃ x, items h a !! i = Some (Some x).
Proof.
  intros Ha Hi. destruct (lookup_lt_is_Some_2 (items h a) i Hi) as [slot Hslot].
  unfold no_holes in Ha. rewrite Forall_forall in Ha.
  destruct (Ha slot) as [x ->]; [by eapply list_elem_of_lookup_2|]. eauto.
Qed.

(** ** Symmetry *)

Lemma run_pure_bind (rec : value -> value -> outcome) p k :
  run_pure rec (bind p k) =
  match run_pure rec p with
  | Ret r => run_pure rec (k r)
  | other => other
  end.
Proof.
  induction p as [r|a b k' IH|]; simpl; try done.
  destruct (rec a b) as [r| |]; simpl; auto.
Qed.

Lemma run_pure_every_cons {A} (rec : value -> value -> outcome) (f : A -> prog) x xs :
  run_pure rec (every f (x :: xs)) =
  match run_pure rec (f x) with
  | Ret true => run_pure rec (every f xs)
  | other => other
  end.
Proof.
  simpl. rewrite run_pure_bind. by destruct (run_pure rec (f x)) as [[|]| |].
Qed.

Lemma run_pure_step (rec : value -> value -> outcome) present x y :
  run_pure rec (step_prog (present, (x, y))) = if present then rec x y else Ret false.
Proof.
  unfold step_prog, and_then, call_pair. simpl.
  destruct present; [|done]. simpl. by destruct (rec x y).
Qed.

Lemma run_step (rec : rec_fun) present x y this :
  run rec (step_prog (present, (x, y))) this
  = if present then rec x y this else (Ret false, this).
Proof.
  unfold step_prog, and_then, call_pair. simpl fst. simpl snd.
  destruct present; [|done]. apply run_call.
Qed.

(** On a tree the guard never fires: the engine computes [structEqual]. *)
Lemma run_tree_steps fuel h steps fp this :
  (∀ a b e fpa, builtin e -> tree h a fpa -> fpa ## visited e ->
     (deepEqual fuel h a b e).1 = structEqual fuel h a b
     ∧ visited (deepEqual fuel h a b e).2 ⊆ visited e ∪ fpa) ->
  builtin this -> trees h steps.*2.*1 fp -> fp ## visited this ->
  (run (deepEqual fuel h) (every step_prog steps) this).1
    = run_pure (structEqual fuel h) (every step_prog steps)
  ∧ visited (run (deepEqual fuel h) (every step_prog steps) this).2 ⊆ visited this ∪ fp.
Proof.
  intros IH. revert fp this.
  induction steps as [|[present [x y]] steps IHs]; intros fp this Hb Htrees Hdisj.
  - simpl. split; [done|set_solver].
  - rewrite run_every_cons, run_pure_every_cons, run_step, run_pure_step.
    csimpl in Htrees.
    inversion Htrees as [|? ? fp1 fps Hx Hrest Hd]; subst.
    destruct present; [|split; [done|set_solver]].
    destruct (IH x y this fp1 Hb Hx) as [Hres Hvis]; [set_solver|].
    pose proof (deepEqual_builtin_le fuel h x y this Hb) as Hb1.
    destruct (deepEqual fuel h x y this) as [o this1]. simpl in *.
    rewrite <- Hres.
    destruct o as [[|]| |]; simpl; try (split; [done|set_solver]).
    destruct (IHs fps this1 Hb1 Hrest) as [Hres' Hvis']; [set_solver|].
    split; [done|set_solver].
Qed.

Lemma get_keys ps : NoDup (keys ps) -> get ps <$> keys ps = ps.*2.
Proof.
  unfold keys. induction ps as [|[k v] ps IH]; csimpl; [done|].
  intros [Hk Hnd]%NoDup_cons. rewrite String.eqb_refl. f_equal.
  rewrite <- IH by done. apply list_fmap_ext. intros i k' Hk'.
  destruct (String.eqb_spec k k') as [->|Hne]; [|done].
  destruct Hk. eapply list_elem_of_lookup_2. exact Hk'.
Qed.

Lemma array_compare_steps h a b :
  shape_of h a = Sequence ->
  compare ArrayComparator h a b =
  if isArray h b && (length (items h a) =? length (items h b))
  then every step_prog (array_steps h a b)
  else Return false.
Proof.
  intros Ha. rewrite compare_array by done.
  destruct (isArray h b); [|done]. cbn [negb orb andb].
  destruct (Nat.eqb_spec (length (items h a)) (length (items h b))) as [Hlen|]; [|done].
  cbn [negb]. unfold array_steps. rewrite every_fmap.
  apply every_ext. by intros [i x] _.
Qed.

Lemma object_compare_steps h a b :
  shape_of h a = Mapping ->
  compare ObjectComparator h a b =
  if isPlainObject h b && (length (keys (props h a)) =? length (keys (props h b)))
  then every step_prog (object_steps h a b)
  else Return false.
Proof.
  intros Ha. rewrite compare_object by done.
  destruct (isPlainObject h b) eqn:Hb.
  - apply shape_of_isPlainObject, mapping_checks in Hb. rewrite Hb. cbn [andb].
    destruct (_ =? _); [|done]. cbn [negb].
    unfold object_steps. by rewrite every_fmap.
  - cbn [andb]. destruct (_ || _) eqn:Hchk; [done|].
    apply mapping_checks, shape_of_isPlainObject in Hchk. congruence.
Qed.

Lemma array_steps_lefts h l b :
  shape_of h (VRef l) = Sequence -> length (items h (VRef l)) = length (items h b) ->
  (array_steps h (VRef l) b).*2.*1 = children (deref h l).
Proof.
  intros Ha _. rewrite <- items_children by done.
  unfold array_steps, entries. generalize 0.
  induction (items h (VRef l)) as [|[x|] slots IH]; intros k; csimpl.
  - done.
  - by rewrite IH.
  - apply IH.
Qed.

Lemma object_steps_lefts h l b :
  distinct_keys h -> shape_of h (VRef l) = Mapping ->
  (object_steps h (VRef l) b).*2.*1 = children (deref h l).
Proof.
  intros Hnd Ha. unfold object_steps.
  rewrite <- !list_fmap_compose.
  rewrite <- props_children by done. rewrite <- (get_keys _ (Hnd l)). done.
Qed.

Lemma tree_deepEqual fuel h :
  distinct_keys h ->
  ∀ a b e fpa, builtin e -> tree h a fpa -> fpa ## visited e ->
    (deepEqual fuel h a b e).1 = structEqual fuel h a b
    ∧ visited (deepEqual fuel h a b e).2 ⊆ visited e ∪ fpa.
Proof.
  intros Hnd. induction fuel as [|fuel IH]; intros a b e fpa Hb Ht Hdisj.
  { simpl. split; [done|set_solver]. }
  rewrite deepEqual_builtin by done. cbn [structEqual].
  inversion Ht as [v Hp|l fp Hkids Hl]; subst.
  - rewrite guard_primitive by done.
    rewrite (proj2 (shape_primitive_iff h a) Hp). simpl. split; [done|set_solver].
  - rewrite guard_miss by set_solver.
    assert (builtin (record_visit l e)) as Hb1 by done.
    assert (fp ## visited (record_visit l e)) as Hdisj1 by (simpl; set_solver).
    destruct (shape_of h (VRef l)) eqn:Hs; simpl comparator_for.
    + by apply shape_primitive_iff with (l := l) in Hs.
    + rewrite array_compare_steps by done.
      destruct (isArray h b); [|simpl; split; [done|set_solver]]. cbn [andb].
      destruct (Nat.eqb_spec (length (items h (VRef l))) (length (items h b)))
        as [Hlen|]; [|simpl; split; [done|set_solver]].
      destruct (run_tree_steps fuel h (array_steps h (VRef l) b) fp
                  (record_visit l e) IH Hb1) as [Hres Hvis]; [|done|].
      { by rewrite array_steps_lefts. }
      split; [done|]. simpl in Hvis. set_solver.
    + rewrite object_compare_steps by done.
      destruct (_ && _); [|simpl; split; [done|set_solver]].
      destruct (run_tree_steps fuel h (object_steps h (VRef l) b) fp
                  (record_visit l e) IH Hb1) as [Hres Hvis]; [|done|].
      { by rewrite object_steps_lefts. }
      split; [done|]. simpl in Hvis. set_solver.
Qed.

Lemma SFeqb_sym x y : SFeqb x y = SFeqb y x.
Proof.
  unfold SFeqb, SFcompare.
  destruct x as [s|s| |s m e], y as [s'|s'| |s' m' e']; try done;
    destruct s, s'; try done;
    rewrite (Z.compare_antisym e e');
    destruct (e ?= e')%Z; simpl; try done;
    change (Pos.compare_cont Eq m' m) with (m' ?= m)%positive;
    change (Pos.compare_cont Eq m m') with (m ?= m')%positive;
    rewrite (Pos.compare_antisym m m');
    by destruct (m ?= m')%positive.
Qed.

Lemma strict_eq_sym a b : strict_eq a b = strict_eq b a.
Proof.
  destruct a, b; simpl; try done.
  - by destruct b, b0.
  - apply SFeqb_sym.
  - apply String.eqb_sym.
  - apply Nat.eqb_sym.
  - apply Z.eqb_sym.
  - apply Nat.eqb_sym.
  - apply Nat.eqb_sym.
Qed.

Lemma run_pure_steps_true (rec : value -> value -> outcome) steps :
  run_pure rec (every step_prog steps) = Ret true ↔
  ∀ present x y, (present, (x, y)) ∈ steps -> present = true ∧ rec x y = Ret true.
Proof.
  induction steps as [|[p [a b]] steps IH].
  - simpl. split; [|done]. by intros _ ? ? ? ?%elem_of_nil.
  - rewrite run_pure_every_cons, run_pure_step. split.
    + intros Hrun present x y [[= -> -> ->]|Hin]%elem_of_cons.
      * destruct p; [|done]. by destruct (rec a b) as [[|]| |].
      * apply IH; [|done]. destruct p; [|done]. by destruct (rec a b) as [[|]| |].
    + intros Hall. destruct (Hall p a b) as [-> ->]; [by left|].
      apply IH. intros. apply Hall. by right.
Qed.

Lemma run_pure_steps_false (rec : value -> value -> outcome) steps :
  run_pure rec (every step_prog steps) = Ret false ->
  ∃ present x y, (present, (x, y)) ∈ steps ∧ (present = false ∨ rec x y = Ret false).
Proof.
  induction steps as [|[p [a b]] steps IH]; [done|].
  rewrite run_pure_every_cons, run_pure_step.
  destruct p.
  - destruct (rec a b) as [[|]| |] eqn:Hab; try done.
    + intros (present & x & y & Hin & Hc)%IH. exists present, x, y. split; [by right|done].
    + intros _. exists true, a, b. split; [by left|by right].
  - intros _. exists false, a, b. split; [by left|by left].
Qed.

Lemma keys_pigeonhole (ks ks' : list string) :
  NoDup ks -> length ks = length ks' -> (∀ k, k ∈ ks -> k ∈ ks') ->
  ∀ k, k ∈ ks' -> k ∈ ks.
Proof.
  intros Hnd Hlen Hsub k Hk.
  assert (ks ≡ₚ ks') as Hperm.
  { apply submseteq_length_Permutation; [by apply NoDup_submseteq|lia]. }
  by rewrite Hperm.
Qed.

Lemma shape_of_strict_eq h a b :
  shape_of h a = Primitive -> strict_eq a b = true -> shape_of h b = Primitive.
Proof.
  intros Ha Heq. apply shape_primitive_iff. intros l ->.
  rewrite strict_eq_primitive_ref in Heq; [done|]. by apply (shape_primitive_iff h).
Qed.

Lemma structEqual_sym_true h :
  distinct_keys h ->
  ∀ n m a b r, hole_free h a ->
    structEqual n h a b = Ret true -> structEqual m h b a = Ret r -> r = true.
Proof.
  intros Hnd. induction n as [|n IH]; intros m a b r Hfree Hab Hba; [done|].
  destruct m as [|m]; [done|]. cbn [structEqual] in Hab, Hba.
  destruct (shape_of h a) eqn:Ha; simpl comparator_for in Hab.
  - simpl in Hab. injection Hab as Hab.
    rewrite (shape_of_strict_eq h a b Ha Hab) in Hba. simpl in Hba.
    rewrite strict_eq_sym in Hba. congruence.
  - rewrite array_compare_steps in Hab by done.
    destruct (isArray h b) eqn:Hb; [|done]. cbn [andb] in Hab.
    destruct (Nat.eqb_spec (length (items h a)) (length (items h b))) as [Hlen|]; [|done].
    apply shape_of_isArray in Hb. rewrite Hb in Hba. simpl comparator_for in Hba.
    rewrite array_compare_steps in Hba by done.
    rewrite (proj2 (shape_of_isArray h a) Ha), <- Hlen, Nat.eqb_refl in Hba.
    cbn [andb] in Hba.
    destruct r; [done|].
    apply run_pure_steps_false in Hba as (p & y & x & Hin & Hc).
    unfold array_steps in Hin.
    apply list_elem_of_fmap in Hin as ([j y0] & [= -> -> ->] & Hin).
    destruct Hc as [|Hyx]; [done|].
    apply entries_lookup in Hin.
    destruct (no_holes_lookup h a j (hole_free_top h a Hfree)) as [x0 Hx0].
    { rewrite Hlen. eauto using lookup_lt_Some. }
    destruct (proj1 (run_pure_steps_true _ _) Hab true x0 (at_index (items h b) j))
      as [_ Hxy].
    { unfold array_steps. apply list_elem_of_fmap. exists (j, x0).
      split; [done|]. by apply entries_lookup_2. }
    unfold at_index in Hxy, Hyx. rewrite Hin in Hxy. rewrite Hx0 in Hyx.
    eapply (IH m x0 y0); eauto using hole_free_slot.
  - rewrite object_compare_steps in Hab by done.
    destruct (isPlainObject h b) eqn:Hb; [|done]. cbn [andb] in Hab.
    destruct (Nat.eqb_spec (length (keys (props h a))) (length (keys (props h b))))
      as [Hlen|]; [|done].
    apply shape_of_isPlainObject in Hb. rewrite Hb in Hba. simpl comparator_for in Hba.
    rewrite object_compare_steps in Hba by done.
    rewrite (proj2 (shape_of_isPlainObject h a) Ha), <- Hlen, Nat.eqb_refl in Hba.
    cbn [andb] in Hba.
    pose proof (proj1 (run_pure_steps_true _ _) Hab) as Hall.
    assert (∀ key, key ∈ keys (props h a) ->
      key ∈ keys (props h b)
      ∧ structEqual n h (get (props h a) key) (get (props h b) key) = Ret true) as Hkeys.
    { intros key Hkey.
      destruct (Hall (bool_decide (key ∈ keys (props h b)))
                  (get (props h a) key) (get (props h b) key)) as [Hp Hxy].
      { unfold object_steps. apply list_elem_of_fmap. by exists key. }
      split; [by apply bool_decide_eq_true in Hp|done]. }
    assert (∀ key, key ∈ keys (props h b) -> key ∈ keys (props h a)) as Hback.
    { destruct a as [| | | | | | | |la]; try done.
      apply keys_pigeonhole; [apply Hnd|done|]. intros k Hk. by apply Hkeys. }
    destruct r; [done|].
    apply run_pure_steps_false in Hba as (p & y & x & Hin & Hc).
    unfold object_steps in Hin.
    apply list_elem_of_fmap in Hin as (key & [= -> -> ->] & Hin).
    destruct Hc as [Hc|Hyx].
    + apply bool_decide_eq_false in Hc. destruct Hc. by apply Hback.
    + destruct (Hkeys key (Hback key Hin)) as [_ Hxy].
      eapply (IH m (get (props h a) key) (get (props h b) key));
        eauto using hole_free_prop.
Qed.

Lemma distinct_keys_list_to_map (cells : list (loc * obj)) :
  Forall (fun cell => NoDup (keys (match cell.2 with
                                   | OObject ps => ps
                                   | OArray _ => []
                                   end))) cells ->
  distinct_keys (list_to_map cells).
Proof.
  intros Hcells l. simpl. unfold deref.
  destruct (list_to_map cells !! l) as [o|] eqn:E; simpl; [|constructor].
  apply elem_of_list_to_map_2 in E.
  rewrite Forall_forall in Hcells. specialize (Hcells _ E). simpl in Hcells.
  destruct o; [constructor|done].
Qed.

(** C9, counterexample.  Two inputs.  [a = [o, o]] holds the object
    [o = {x: 1}] twice; [b = [p, q]] holds two separate objects [{x: 1}].
    Both are acyclic arrays, and on fresh engines [deepEqual(a, b)] is
    [false], because [o] is in the guard set when it comes up the second
    time, while [deepEqual(b, a)] is [true].  And [[ , ]] and [[5]] are
    acyclic arrays of length one with [deepEqual([ , ], [5])] [true],
    because [every] skips the hole, and [deepEqual([5], [ , ])] [false]. *)
Lemma symmetry_fails_on_shared_cell_and_on_holes :
  (let a := VRef 1 in
   let b := VRef 4 in
   acyclic sharing_heap a ∧ acyclic sharing_heap b
   ∧ shape_of sharing_heap a = shape_of sharing_heap b
   ∧ (∀ fuel, 3 ≤ fuel ->
        (deepEqual fuel sharing_heap a b new_DeepEqualEngine).1 = Ret false
        ∧ (deepEqual fuel sharing_heap b a new_DeepEqualEngine).1 = Ret true))
  ∧ (let a := VRef 0 in
     let b := VRef 1 in
     acyclic sparse_heap a ∧ acyclic sparse_heap b
     ∧ shape_of sparse_heap a = shape_of sparse_heap b
     ∧ (∀ fuel, 2 ≤ fuel ->
          (deepEqual fuel sparse_heap a b new_DeepEqualEngine).1 = Ret true
          ∧ (deepEqual fuel sparse_heap b a new_DeepEqualEngine).1 = Ret false)).
Proof.
  split; cycle 1.
  { split; [|split; [|split; [done|]]].
    - apply acyclic_ref. change (children (deref sparse_heap 0)) with (@nil value).
      constructor.
    - apply acyclic_ref. change (children (deref sparse_heap 1)) with [int 5].
      by repeat constructor.
    - intros fuel Hfuel.
      destruct (deepEqual 2 sparse_heap (VRef 0) (VRef 1) new_DeepEqualEngine)
        as [o1 e1] eqn:H1.
      destruct (deepEqual 2 sparse_heap (VRef 1) (VRef 0) new_DeepEqualEngine)
        as [o2 e2] eqn:H2.
      assert (o1 = Ret true) as -> by (by vm_compute in H1; injection H1 as <- _).
      assert (o2 = Ret false) as -> by (by vm_compute in H2; injection H2 as <- _).
      by rewrite (deepEqual_more _ _ _ _ _ _ _ _ H1),
        (deepEqual_more _ _ _ _ _ _ _ _ H2). }
  assert (∀ l, acyclic sharing_heap (VRef l) ↔ Forall (acyclic sharing_heap)
                 (children (deref sharing_heap l))) as Hstep.
  { intros l. split; [|apply acyclic_ref].
    inversion 1 as [v Hp|l' Hk]; subst; [by destruct (Hp l)|done]. }
  assert (∀ l, l ∈ [0; 2; 3] -> acyclic sharing_heap (VRef l)) as Hleaf.
  { intros l Hl. apply Hstep.
    repeat (apply elem_of_cons in Hl as [->|Hl]; [by repeat constructor|]).
    by apply elem_of_nil in Hl. }
  split; [|split; [|split; [done|]]].
  - apply Hstep. change (children (deref sharing_heap 1)) with [VRef 0; VRef 0].
    repeat (apply Forall_cons; split; [apply Hleaf; set_solver|]). constructor.
  - apply Hstep. change (children (deref sharing_heap 4)) with [VRef 2; VRef 3].
    repeat (apply Forall_cons; split; [apply Hleaf; set_solver|]). constructor.
  - intros fuel Hfuel.
    destruct (deepEqual 3 sharing_heap (VRef 1) (VRef 4) new_DeepEqualEngine)
      as [o1 e1] eqn:H1.
    destruct (deepEqual 3 sharing_heap (VRef 4) (VRef 1) new_DeepEqualEngine)
      as [o2 e2] eqn:H2.
    assert (o1 = Ret false) as -> by (by vm_compute in H1; injection H1 as <- _).
    assert (o2 = Ret true) as -> by (by vm_compute in H2; injection H2 as <- _).
    by rewrite (deepEqual_more _ _ _ _ _ _ _ _ H1), (deepEqual_more _ _ _ _ _ _ _ _ H2).
Qed.

Lemma hole_free_list_to_map (cells : list (loc * obj)) v :
  Forall (fun cell => Forall is_Some (match cell.2 with
                                      | OArray slots => slots
                                      | OObject _ => []
                                      end)) cells ->
  hole_free (list_to_map cells) v.
Proof.
  intros Hcells l _. unfold no_holes. simpl. unfold deref.
  destruct (list_to_map cells !! l) as [o|] eqn:E; simpl; [|constructor].
  apply elem_of_list_to_map_2 in E.
  rewrite Forall_forall in Hcells. specialize (Hcells _ E). simpl in Hcells.
  destruct o; [done|constructor].
Qed.

(** C9, amended.  Let [a] and [b] be trees: no cell inside [a] is met twice
    on the way down from [a], and likewise for [b] (so neither is cyclic nor
    holds one object in two places); and let no array inside [a] or [b] have
    a hole.  Then [deepEqual(a, b)] and [deepEqual(b, a)], each on a fresh
    engine, return the same boolean, whatever the shapes of [a] and [b]. *)
Theorem symmetric_on_trees h a b fpa fpb :
  distinct_keys h -> tree h a fpa -> tree h b fpb ->
  hole_free h a -> hole_free h b ->
  ∃ r, ∀ fuel, unvisited h new_DeepEqualEngine < fuel ->
    (deepEqual fuel h a b new_DeepEqualEngine).1 = Ret r
    ∧ (deepEqual fuel h b a new_DeepEqualEngine).1 = Ret r.
Proof.
  intros Hnd Ha Hb Hfa Hfb.
  set (big := S (unvisited h new_DeepEqualEngine)).
  destruct (deepEqual_total big h a b new_DeepEqualEngine) as (r1 & e1 & H1);
    [done|unfold big; lia|].
  destruct (deepEqual_total big h b a new_DeepEqualEngine) as (r2 & e2 & H2);
    [done|unfold big; lia|].
  destruct (tree_deepEqual big h Hnd a b new_DeepEqualEngine fpa) as [S1 _];
    [done|done|set_solver|].
  destruct (tree_deepEqual big h Hnd b a new_DeepEqualEngine fpb) as [S2 _];
    [done|done|set_solver|].
  rewrite H1 in S1. rewrite H2 in S2. simpl in S1, S2.
  assert (r1 = r2) as <-.
  { destruct r1, r2; try done.
    - symmetry. by eapply (structEqual_sym_true h Hnd big big a b).
    - by eapply (structEqual_sym_true h Hnd big big b a). }
  exists r1. intros fuel Hfuel.
  rewrite (deepEqual_more _ _ _ _ _ _ _ _ H1), (deepEqual_more _ _ _ _ _ _ _ _ H2);
    [done|done|unfold big; lia|done|unfold big; lia].
Qed.

Lemma symmetric_on_trees_witness :
  ∃ r, ∀ fuel, unvisited demo_heap new_DeepEqualEngine < fuel ->
    (deepEqual fuel demo_heap (VRef 3) (VRef 9) new_DeepEqualEngine).1 = Ret r
    ∧ (deepEqual fuel demo_heap (VRef 9) (VRef 3) new_DeepEqualEngine).1 = Ret r.
Proof.
  refine (symmetric_on_trees demo_heap (VRef 3) (VRef 9) _ _ _ _ _ _ _);
    [| | |apply hole_free_list_to_map; refine (bool_decide_unpack _ _);
           vm_compute; exact I..].
  - apply distinct_keys_list_to_map.
    refine (bool_decide_unpack _ _). vm_compute. exact I.
  - repeat first
      [ apply tree_primitive; by intros ?
      | eapply tree_ref; [vm_compute children|]
      | eapply trees_cons
      | apply trees_nil ]; set_solver.
  - repeat first
      [ apply tree_primitive; by intros ?
      | eapply tree_ref; [vm_compute children|]
      | eapply trees_cons
      | apply trees_nil ]; set_solver.
Defined.

(** ** Further properties of the engine *)

(** X1.  The guard set after a call holds what it held before plus cells
    inside the left operand only; the comparator list is untouched.  So the
    right operand is never recorded, unless it also occurs inside the left
    one. *)
Theorem guard_gains_only_left_cells fuel h a b this :
  builtin this ->
  comparators (deepEqual fuel h a b this).2 = comparators this
  ∧ ∀ l, l ∈ visited (deepEqual fuel h a b this).2 ->
      l ∈ visited this ∨ reach h a (VRef l).
Proof.
  intros Hb. split; [apply deepEqual_le|].
  revert a b this Hb. induction fuel as [|fuel IH]; intros a b this Hb l; [by left|].
  rewrite deepEqual_builtin by done.
  destruct (guard a b this) as [r|this1] eqn:Hg; [by left|].
  assert (builtin this1) as Hb1 by eauto using builtin_le, guard_inr.
  assert (∀ l', l' ∈ visited this1 -> l' ∈ visited this ∨ reach h a (VRef l')) as H1.
  { destruct a; simpl in Hg; try (injection Hg as <-; by left).
    case_decide; [done|]. injection Hg as <-. simpl.
    intros l' [->%elem_of_singleton|?]%elem_of_union; [right; constructor|by left]. }
  set (I := fun e => builtin e
    ∧ ∀ l', l' ∈ visited e -> l' ∈ visited this ∨ reach h a (VRef l')).
  assert (I this1) as HI1 by done.
  destruct (shape_of h a) eqn:Hs; simpl comparator_for.
  - simpl. apply H1.
  - rewrite compare_array by done.
    destruct (_ || _); [apply H1|].
    edestruct (run_every_inv (deepEqual fuel h)
      (fun '(index, item) => Call item (at_index (items h b) index) Return)
      (entries (items h a)) I (fun _ => True)) as [[_ Hvis] _]; [|exact HI1|by apply Hvis].
    intros [i x] e Hin [He Hev]. rewrite run_call.
    split; [|by right]. split; [by apply deepEqual_builtin_le|].
    intros l' [Hl'|Hl']%(IH _ _ _ He); [by apply Hev|right].
    eapply entry_reach; eauto.
  - rewrite compare_object by done.
    destruct (_ || _); [apply H1|]. destruct (negb _); [apply H1|].
    edestruct (run_every_inv (deepEqual fuel h)
      (fun key => and_then (bool_decide (key ∈ keys (props h b)))
                    (Call (get (props h a) key) (get (props h b) key) Return))
      (keys (props h a)) I (fun _ => True)) as [[_ Hvis] _]; [|exact HI1|by apply Hvis].
    intros key e Hin [He Hev]. unfold and_then.
    destruct (bool_decide _); [|by split; [|right]].
    rewrite run_call.
    split; [|by right]. split; [by apply deepEqual_builtin_le|].
    intros l' [Hl'|Hl']%(IH _ _ _ He); [by apply Hev|right].
    eapply props_reach; eauto.
Qed.

Lemma guard_gains_only_left_cells_witness :
  comparators (deepEqual 3 demo_heap (VRef 3) (VRef 6) new_DeepEqualEngine).2
  = comparators new_DeepEqualEngine
  ∧ ∀ l, l ∈ visited (deepEqual 3 demo_heap (VRef 3) (VRef 6) new_DeepEqualEngine).2 ->
      l ∈ visited new_DeepEqualEngine ∨ reach demo_heap (VRef 3) (VRef l).
Proof.
  apply (guard_gains_only_left_cells 3 demo_heap (VRef 3) (VRef 6) new_DeepEqualEngine).
  reflexivity.
Defined.

Lemma all_true_each fuel h pairs this this' :
  builtin this -> all_true (deepEqual fuel h) pairs this this' ->
  Forall (fun p => ∃ e, builtin e ∧ (deepEqual fuel h p.1 p.2 e).1 = Ret true) pairs.
Proof.
  intros Hb Hall. induction Hall as [e|x y rest e e1 e2 Hxy Hrest IH]; constructor.
  - exists e. split; [done|]. simpl. by rewrite Hxy.
  - apply IH. pose proof (deepEqual_builtin_le fuel h x y e Hb) as Hb1.
    by rewrite Hxy in Hb1.
Qed.

Lemma keys_permutation (ks ks' : list string) :
  NoDup ks -> length ks = length ks' -> (∀ k, k ∈ ks -> k ∈ ks') -> ks ≡ₚ ks'.
Proof.
  intros Hnd Hlen Hsub.
  apply submseteq_length_Permutation; [by apply NoDup_submseteq|lia].
Qed.

(** X2.  On a left operand without holes a [true] is never wrong.  Let no
    array inside [a] have a hole.  Whatever the guard set holds, if
    [deepEqual(a, b)] returns [true] in the engine of the constructor then
    [a] and [b] agree to every depth: equal primitives, or the same
    reference, or arrays of one length whose elements agree in order, or
    plain objects with the same keys whose values agree.  In particular a
    [true] on two objects means neither has a key the other lacks. *)
Theorem true_is_sound h fuel a b this :
  distinct_keys h -> builtin this -> hole_free h a ->
  (deepEqual fuel h a b this).1 = Ret true -> ∀ n, similar n h a b.
Proof.
  intros Hnd Hb Hfree Htrue n. revert fuel a b this Hb Hfree Htrue.
  induction n as [|n IH]; intros fuel a b this Hb Hfree Htrue; [done|].
  destruct fuel as [|fuel]; [done|].
  rewrite deepEqual_builtin in Htrue by done.
  destruct (guard a b this) as [r|this1] eqn:Hg.
  { destruct a as [| | | | | | | |l]; simpl in Hg; try done.
    case_decide; [|done]. injection Hg as <-. simpl in Htrue. injection Htrue as Heq.
    apply strict_eq_ref in Heq as ->. simpl. destruct (deref h l); by left. }
  assert (builtin this1) as Hb1 by eauto using builtin_le, guard_inr.
  cbn [similar].
  destruct (shape_of h a) eqn:Hs; simpl comparator_for in Htrue.
  - simpl in Htrue. by injection Htrue.
  - right. rewrite compare_array in Htrue by done.
    destruct (isArray h b) eqn:Hab; [|done]. cbn [negb orb] in Htrue.
    destruct (Nat.eqb_spec (length (items h a)) (length (items h b))) as [Hlen|];
      [|done].
    cbn [negb] in Htrue.
    rewrite every_entries, dense_pairs in Htrue by auto using hole_free_top.
    split; [by apply shape_of_isArray|].
    destruct (run (deepEqual fuel h)
                (every call_pair (zip (elements h a) (elements h b))) this1)
      as [o e'] eqn:Hrun. simpl in Htrue. subst o.
    apply run_every_pairs_true, (all_true_each _ _ _ _ _ Hb1) in Hrun.
    rewrite Forall_forall in Hrun.
    apply Forall2_same_length_lookup_2; [unfold elements; by rewrite !length_fmap|].
    intros i x y Hx Hy.
    destruct (Hrun (x, y)) as (e & He & Hxy).
    { apply list_elem_of_lookup. exists i. apply lookup_zip_with_Some. eauto. }
    apply (IH fuel x y e); [done| |done].
    unfold elements in Hx. rewrite list_lookup_fmap in Hx.
    destruct (no_holes_lookup h a i (hole_free_top h a Hfree)) as [x' Hx'].
    { destruct (items h a !! i) eqn:E; [|done]. eauto using lookup_lt_Some. }
    rewrite Hx' in Hx. injection Hx as <-. by eapply hole_free_slot.
  - right. rewrite compare_object in Htrue by done.
    destruct (_ || _) eqn:Hchk; [done|].
    destruct (Nat.eqb_spec (length (keys (props h a))) (length (keys (props h b))))
      as [Hlen|]; [|done].
    cbn [negb] in Htrue.
    destruct (run (deepEqual fuel h) _ this1) as [o e'] eqn:Hrun. simpl in Htrue. subst o.
    apply run_every_keys_true in Hrun as [Hkeys Hall].
    apply (all_true_each _ _ _ _ _ Hb1) in Hall. rewrite Forall_forall in Hall.
    split; [by apply mapping_checks|]. split.
    + destruct a as [| | | | | | | |l]; try done.
      apply keys_permutation; [apply Hnd|done|done].
    + intros key Hkey.
      destruct (Hall (get (props h a) key, get (props h b) key)) as (e & He & Hxy).
      { apply list_elem_of_fmap. by exists key. }
      apply (IH fuel _ _ e); [done| |done]. by apply hole_free_prop.
Qed.

Lemma true_is_sound_witness : similar 4 demo_heap (VRef 3) (VRef 6).
Proof.
  refine (true_is_sound demo_heap 3 (VRef 3) (VRef 6) new_DeepEqualEngine _ _ _ _ 4).
  - apply distinct_keys_list_to_map.
    refine (bool_decide_unpack _ _). vm_compute. exact I.
  - reflexivity.
  - apply hole_free_list_to_map.
    refine (bool_decide_unpack _ _). vm_compute. exact I.
  - vm_compute. reflexivity.
Defined.

Lemma strict_eq_typeof a b : strict_eq a b = true -> typeof a = typeof b.
Proof. by destruct a, b. Qed.

(** X3.  No coercion: in the engine of the constructor two values that
    compare [true] have the same [typeof] and the same shape, in every state
    of the guard set.  So a number never equals the string that spells it,
    [null] never equals [undefined], and [null] never equals an object. *)
Theorem true_needs_same_type fuel h a b this :
  builtin this -> (deepEqual fuel h a b this).1 = Ret true ->
  typeof a = typeof b ∧ shape_of h a = shape_of h b.
Proof.
  intros Hb Htrue. destruct fuel as [|fuel]; [done|].
  rewrite deepEqual_builtin in Htrue by done.
  destruct (guard a b this) as [r|this1] eqn:Hg.
  { destruct a as [| | | | | | | |l]; simpl in Hg; try done.
    case_decide; [|done]. injection Hg as <-. simpl in Htrue. injection Htrue as Heq.
    by apply strict_eq_ref in Heq as ->. }
  destruct (shape_of h a) eqn:Ha; simpl comparator_for in Htrue.
  - simpl in Htrue. injection Htrue as Heq.
    split; [by apply strict_eq_typeof|].
    symmetry. by apply (shape_of_strict_eq h a b).
  - rewrite compare_array in Htrue by done.
    destruct (isArray h b) eqn:Hab; [|done].
    apply shape_of_isArray in Hab. split; [|done].
    destruct a as [| | | | | | | |l]; try done.
    by destruct b as [| | | | | | | |l'].
  - rewrite compare_object in Htrue by done.
    destruct (_ || _) eqn:Hchk; [done|].
    apply mapping_checks in Hchk. split; [|done].
    destruct a as [| | | | | | | |l]; try done.
    by destruct b as [| | | | | | | |l'].
Qed.

Lemma true_needs_same_type_witness :
  typeof (VRef 0) = typeof (VRef 1)
  ∧ shape_of demo_heap (VRef 0) = shape_of demo_heap (VRef 1).
Proof.
  apply (true_needs_same_type 2 demo_heap (VRef 0) (VRef 1) new_DeepEqualEngine).
  - reflexivity.
  - vm_compute. reflexivity.
Defined.

(** X4.  On a left operand that is a tree none of whose cells is in the
    guard set, the guard never fires: the engine of the constructor gives
    exactly the answer of the three comparison rules run without a guard
    set, whatever the right operand is (cyclic or shared), and records cells
    of the left operand only. *)
Theorem tree_operand_needs_no_guard h a b this fp :
  distinct_keys h -> builtin this -> tree h a fp -> fp ## visited this ->
  (∀ fuel, (deepEqual fuel h a b this).1 = structEqual fuel h a b
           ∧ visited (deepEqual fuel h a b this).2 ⊆ visited this ∪ fp)
  ∧ ∃ r, ∀ fuel, unvisited h this < fuel ->
      structEqual fuel h a b = Ret r ∧ (deepEqual fuel h a b this).1 = Ret r.
Proof.
  intros Hnd Hb Ht Hd.
  split; [intros fuel; by apply tree_deepEqual|].
  destruct (deepEqual_total (S (unvisited h this)) h a b this) as (r & this' & Hr);
    [done|lia|].
  exists r. intros fuel Hfuel.
  destruct (tree_deepEqual fuel h Hnd a b this fp Hb Ht Hd) as [<- _].
  rewrite (deepEqual_more _ _ _ _ _ _ _ _ Hr); [done|done|lia].
Qed.

Lemma tree_operand_needs_no_guard_witness :
  (deepEqual 3 demo_heap (VRef 5) (VRef 12) new_DeepEqualEngine).1
  = structEqual 3 demo_heap (VRef 5) (VRef 12)
  ∧ visited (deepEqual 3 demo_heap (VRef 5) (VRef 12) new_DeepEqualEngine).2
    ⊆ visited new_DeepEqualEngine ∪ ({[5]} ∪ (∅ ∪ ∅)).
Proof.
  refine (proj1 (tree_operand_needs_no_guard demo_heap (VRef 5) (VRef 12)
                   new_DeepEqualEngine ({[5]} ∪ (∅ ∪ ∅)) _ _ _ _) 3).
  - apply distinct_keys_list_to_map.
    refine (bool_decide_unpack _ _). vm_compute. exact I.
  - reflexivity.
  - apply tree_ref.
    + change (children (deref demo_heap 5)) with [int 4].
      apply trees_cons; [by apply tree_primitive|apply trees_nil|set_solver].
    + set_solver.
  - simpl. set_solver.
Defined.

Lemma run_inert (rec rec' : rec_fun) c p this :
  (∀ a b e, rec' a b (addComparator c e)
            = ((rec a b e).1, addComparator c (rec a b e).2)) ->
  run rec' p (addComparator c this)
  = ((run rec p this).1, addComparator c (run rec p this).2).
Proof.
  intros Hrec. revert this.
  induction p as [r|a b k IH|]; intros this; simpl; try done.
  rewrite Hrec. destruct (rec a b this) as [[r| |] e]; simpl; auto.
Qed.

(** X5.  Registering a comparator that accepts no value changes no answer:
    every call on the engine with it returns what the call on the engine
    without it returns, and leaves the same guard set, for any engine
    (whatever else is registered). *)
Theorem rejecting_comparator_is_inert c h :
  (∀ v, canHandle c h v = false) ->
  ∀ fuel a b this,
    deepEqual fuel h a b (addComparator c this)
    = ((deepEqual fuel h a b this).1, addComparator c (deepEqual fuel h a b this).2).
Proof.
  intros Hc. induction fuel as [|fuel IH]; intros a b this; [done|].
  cbn [deepEqual].
  assert (guard a b (addComparator c this)
          = match guard a b this with
            | inl r => inl r
            | inr e => inr (addComparator c e)
            end) as ->.
  { destruct a; simpl; try done. by case_decide. }
  destruct (guard a b this) as [r|this1]; [done|].
  assert (findComparator h a (addComparator c this1) = findComparator h a this1) as ->.
  { unfold findComparator. simpl. by rewrite Hc. }
  destruct (findComparator h a this1) as [c'|]; [|done].
  by apply run_inert.
Qed.

Lemma rejecting_comparator_is_inert_witness :
  deepEqual 3 demo_heap (VRef 3) (VRef 6) (addComparator NeverComparator new_DeepEqualEngine)
  = ((deepEqual 3 demo_heap (VRef 3) (VRef 6) new_DeepEqualEngine).1,
     addComparator NeverComparator
       (deepEqual 3 demo_heap (VRef 3) (VRef 6) new_DeepEqualEngine).2).
Proof.
  apply (rejecting_comparator_is_inert NeverComparator demo_heap).
  intros v. reflexivity.
Defined.

Lemma SFeqb_true x y :
  SFeqb x y = true ->
  x = y ∨ ((∃ s, x = S754_zero s) ∧ (∃ s, y = S754_zero s)).
Proof.
  unfold SFeqb, SFcompare.
  destruct x as [s|s| |s m e], y as [s'|s'| |s' m' e'];
    try destruct s; try destruct s'; try done;
    try (by left); try (by right; eauto);
    destruct (Z.compare_spec e e') as [->| |]; try done;
    fold (Pos.compare m m');
    destruct (Pos.compare_spec m m') as [->| |]; try done; by left.
Qed.

Lemma SFeqb_trans x y z : SFeqb x y = true -> SFeqb y z = true -> SFeqb x z = true.
Proof.
  intros [->|[[s ->] [s' ->]]]%SFeqb_true; [done|].
  intros [<-|[_ [s'' ->]]]%SFeqb_true; done.
Qed.

Lemma strict_eq_trans a b c :
  strict_eq a b = true -> strict_eq b c = true -> strict_eq a c = true.
Proof.
  destruct a, b; simpl; try done; destruct c; simpl; try done.
  - destruct b, b0, b1; done.
  - apply SFeqb_trans.
  - intros ->%String.eqb_eq. done.
  - intros ->%Nat.eqb_eq. done.
  - intros ->%Z.eqb_eq. done.
  - intros ->%Nat.eqb_eq. done.
  - intros ->%Nat.eqb_eq. done.
Qed.

Lemma structEqual_trans h n :
  ∀ m a b c, hole_free h b ->
    structEqual n h a b = Ret true -> structEqual m h b c = Ret true ->
    structEqual n h a c = Ret true.
Proof.
  induction n as [|n IH]; intros m a b c Hfree Hab Hbc; [done|].
  destruct m as [|m]; [done|]. cbn [structEqual] in *.
  destruct (shape_of h a) eqn:Ha; simpl comparator_for in *.
  - simpl in Hab. injection Hab as Hab.
    rewrite (shape_of_strict_eq h a b Ha Hab) in Hbc. simpl in Hbc. injection Hbc as Hbc.
    simpl. f_equal. eauto using strict_eq_trans.
  - rewrite array_compare_steps in Hab |- * by done.
    destruct (isArray h b) eqn:Hb; [|done]. cbn [andb] in Hab.
    destruct (Nat.eqb_spec (length (items h a)) (length (items h b))) as [Hlen|]; [|done].
    apply shape_of_isArray in Hb. rewrite Hb in Hbc. simpl comparator_for in Hbc.
    rewrite array_compare_steps in Hbc by done.
    destruct (isArray h c) eqn:Hc; [|done]. cbn [andb] in Hbc |- *.
    destruct (Nat.eqb_spec (length (items h b)) (length (items h c))) as [Hlen'|]; [|done].
    rewrite Hlen, Hlen', Nat.eqb_refl.
    apply run_pure_steps_true. intros present x z Hin.
    unfold array_steps in Hin.
    apply list_elem_of_fmap in Hin as ([i x0] & [= -> -> ->] & Hin).
    split; [done|].
    destruct (no_holes_lookup h b i (hole_free_top h b Hfree)) as [y Hy].
    { rewrite <- Hlen. apply entries_lookup in Hin. eauto using lookup_lt_Some. }
    destruct (proj1 (run_pure_steps_true _ _) Hab true x0 (at_index (items h b) i))
      as [_ Hxy].
    { apply list_elem_of_fmap. by exists (i, x0). }
    destruct (proj1 (run_pure_steps_true _ _) Hbc true y (at_index (items h c) i))
      as [_ Hyz].
    { apply list_elem_of_fmap. exists (i, y). split; [done|]. by apply entries_lookup_2. }
    unfold at_index in Hxy at 1. rewrite Hy in Hxy.
    eapply (IH m x0 y); eauto using hole_free_slot.
  - rewrite object_compare_steps in Hab |- * by done.
    destruct (isPlainObject h b) eqn:Hb; [|done]. cbn [andb] in Hab.
    destruct (Nat.eqb_spec (length (keys (props h a))) (length (keys (props h b))))
      as [Hlen|]; [|done].
    apply shape_of_isPlainObject in Hb. rewrite Hb in Hbc. simpl comparator_for in Hbc.
    rewrite object_compare_steps in Hbc by done.
    destruct (isPlainObject h c) eqn:Hc; [|done]. cbn [andb] in Hbc |- *.
    destruct (Nat.eqb_spec (length (keys (props h b))) (length (keys (props h c))))
      as [Hlen'|]; [|done].
    rewrite Hlen, Hlen', Nat.eqb_refl.
    pose proof (proj1 (run_pure_steps_true _ _) Hab) as Hab'.
    pose proof (proj1 (run_pure_steps_true _ _) Hbc) as Hbc'.
    apply run_pure_steps_true. intros present x z Hin.
    unfold object_steps in Hin.
    apply list_elem_of_fmap in Hin as (key & [= -> -> ->] & Hin).
    destruct (Hab' (bool_decide (key ∈ keys (props h b)))
                (get (props h a) key) (get (props h b) key)) as [Hkb Hxy].
    { apply list_elem_of_fmap. by exists key. }
    apply bool_decide_eq_true in Hkb.
    destruct (Hbc' (bool_decide (key ∈ keys (props h c)))
                (get (props h b) key) (get (props h c) key)) as [Hkc Hyz].
    { apply list_elem_of_fmap. by exists key. }
    split; [done|].
    eapply (IH m _ (get (props h b) key)); eauto using hole_free_prop.
Qed.

(** X6.  Transitivity on trees.  Let [a] and [b] be trees, and let no array
    inside [b] have a hole.  If [deepEqual(a, b)] and [deepEqual(b, c)] both
    return [true], each on a fresh engine, then so does [deepEqual(a, c)]. *)
Theorem transitive_on_trees h a b c fpa fpb fuel1 fuel2 :
  distinct_keys h -> tree h a fpa -> tree h b fpb -> hole_free h b ->
  (deepEqual fuel1 h a b new_DeepEqualEngine).1 = Ret true ->
  (deepEqual fuel2 h b c new_DeepEqualEngine).1 = Ret true ->
  ∀ fuel, fuel1 ≤ fuel -> (deepEqual fuel h a c new_DeepEqualEngine).1 = Ret true.
Proof.
  intros Hnd Ha Hb Hfree Hab Hbc fuel Hfuel.
  destruct (tree_deepEqual fuel1 h Hnd a b new_DeepEqualEngine fpa) as [Sab _];
    [done|done|set_solver|].
  destruct (tree_deepEqual fuel2 h Hnd b c new_DeepEqualEngine fpb) as [Sbc _];
    [done|done|set_solver|].
  destruct (tree_deepEqual fuel1 h Hnd a c new_DeepEqualEngine fpa) as [Sac _];
    [done|done|set_solver|].
  rewrite Hab in Sab. rewrite Hbc in Sbc.
  rewrite (structEqual_trans h fuel1 fuel2 a b c) in Sac by done.
  destruct (deepEqual fuel1 h a c new_DeepEqualEngine) as [o e] eqn:Hrun.
  simpl in Sac. subst o.
  by rewrite (deepEqual_more _ _ _ _ _ _ _ _ Hrun).
Qed.

Lemma transitive_on_trees_witness :
  (deepEqual 5 demo_heap (VRef 3) (VRef 3) new_DeepEqualEngine).1 = Ret true.
Proof.
  refine (transitive_on_trees demo_heap (VRef 3) (VRef 6) (VRef 3) _ _ 3 3
            _ _ _ _ _ _ 5 _);
    [| | |apply hole_free_list_to_map; refine (bool_decide_unpack _ _);
           vm_compute; exact I| | |lia].
  - apply distinct_keys_list_to_map.
    refine (bool_decide_unpack _ _). vm_compute. exact I.
  - repeat first
      [ apply tree_primitive; by intros ?
      | eapply tree_ref; [vm_compute children|]
      | eapply trees_cons
      | apply trees_nil ]; set_solver.
  - repeat first
      [ apply tree_primitive; by intros ?
      | eapply tree_ref; [vm_compute children|]
      | eapply trees_cons
      | apply trees_nil ]; set_solver.
  - vm_compute. reflexivity.
  - vm_compute. reflexivity.
Defined.

Lemma run_every_ext {A} (rec rec' : rec_fun) (f : A -> prog) xs :
  (∀ x e, x ∈ xs -> run rec (f x) e = run rec' (f x) e) ->
  ∀ e, run rec (every f xs) e = run rec' (every f xs) e.
Proof.
  induction xs as [|x xs IH]; intros Hf e; [done|].
  rewrite !run_every_cons, Hf by (by left).
  destruct (run rec' (f x) e) as [[[|]| |] e']; try done.
  apply IH. intros. apply Hf. by right.
Qed.

Lemma reach_undefined h w : reach h VUndefined w -> w = VUndefined.
Proof. by inversion 1. Qed.

Lemma at_index_reach h b i l :
  reach h (at_index (items h b) i) (VRef l) -> reach h b (VRef l).
Proof.
  unfold at_index. destruct (items h b !! i) as [[y|]|] eqn:Hy; simpl.
  - intros Hr. by eapply slot_reach.
  - by intros ?%reach_undefined.
  - by intros ?%reach_undefined.
Qed.

Lemma compare_local h h' a b :
  (∀ l, a = VRef l ∨ b = VRef l -> deref h l = deref h' l) ->
  shape_of h' a = shape_of h a
  ∧ items h' a = items h a ∧ items h' b = items h b
  ∧ props h' a = props h a ∧ props h' b = props h b
  ∧ compare (comparator_for (shape_of h a)) h' a b
    = compare (comparator_for (shape_of h a)) h a b.
Proof.
  intros Hagree.
  assert (∀ v, v = a ∨ v = b ->
    shape_of h' v = shape_of h v ∧ items h' v = items h v ∧ props h' v = props h v
    ∧ isArray h' v = isArray h v ∧ isPlainObject h' v = isPlainObject h v) as Hv.
  { intros v Hab. unfold isPlainObject. destruct v as [| | | | | | | |l]; simpl; try done.
    rewrite (Hagree l) by (destruct Hab as [<-|<-]; auto). done. }
  destruct (Hv a) as (Hsa & Hia & Hpa & Haa & Hoa); [by left|].
  destruct (Hv b) as (Hsb & Hib & Hpb & Hab & Hob); [by right|].
  repeat (split; [done|]).
  destruct (shape_of h a); simpl; [done| |].
  - by rewrite Haa, Hab, Hia, Hib.
  - by rewrite Hoa, Hab, Hpa, Hpb.
Qed.

(** X7.  The comparison is local: it reads only cells that occur inside its
    two operands.  If two heaps hold the same arrays and objects at every
    cell inside [a] or inside [b], then [deepEqual(a, b)] returns the same
    answer and leaves the same guard set on both. *)
Theorem comparison_is_local h h' :
  ∀ fuel a b this, builtin this ->
    (∀ l, reach h a (VRef l) ∨ reach h b (VRef l) -> deref h l = deref h' l) ->
    deepEqual fuel h' a b this = deepEqual fuel h a b this.
Proof.
  induction fuel as [|fuel IH]; intros a b this Hb Hagree; [done|].
  rewrite !deepEqual_builtin by done.
  destruct (guard a b this) as [r|this1] eqn:Hg; [done|].
  destruct (compare_local h h' a b) as (Hs & Hia & Hib & Hpa & Hpb & Hcmp).
  { intros l [->| ->]; apply Hagree; [left|right]; constructor. }
  rewrite Hs, Hcmp. clear Hcmp.
  assert (∀ e, engine_le this1 e -> builtin e) as Hle.
  { intros e He. eauto using builtin_le, guard_inr. }
  destruct (shape_of h a) eqn:Hsa; simpl comparator_for.
  - done.
  - rewrite compare_array by done. destruct (_ || _); [done|].
    assert (∀ e, engine_le this1 e ->
      run (deepEqual fuel h')
        (every (fun '(index, item) => Call item (at_index (items h b) index) Return)
           (entries (items h a))) e
      = run (deepEqual fuel h)
        (every (fun '(index, item) => Call item (at_index (items h b) index) Return)
           (entries (items h a))) e) as Hrun; [|by apply Hrun].
    generalize (entries_lookup (items h a)).
    generalize (entries (items h a)). intros es.
    induction es as [|[i x] es IHes]; intros Hes e He; [done|].
    rewrite !run_every_cons, !run_call.
    assert (deepEqual fuel h' x (at_index (items h b) i) e
            = deepEqual fuel h x (at_index (items h b) i) e) as ->.
    { apply IH; [by apply Hle|].
      intros l [Hl|Hl]; apply Hagree.
      - left. eapply (slot_reach h a i x); [apply (Hes i x); by left|exact Hl].
      - right. by apply (at_index_reach h b i). }
    pose proof (deepEqual_le fuel h x (at_index (items h b) i) e) as Hstep.
    destruct (deepEqual fuel h x (at_index (items h b) i) e) as [[[|]| |] e']; try done.
    apply IHes; [|by etrans]. intros j y Hin. apply (Hes j y). by right.
  - rewrite compare_object by done.
    destruct (_ || _); [done|]. destruct (negb _); [done|].
    assert (∀ e, engine_le this1 e ->
      run (deepEqual fuel h')
        (every (fun key => and_then (bool_decide (key ∈ keys (props h b)))
                             (Call (get (props h a) key) (get (props h b) key) Return))
           (keys (props h a))) e
      = run (deepEqual fuel h)
        (every (fun key => and_then (bool_decide (key ∈ keys (props h b)))
                             (Call (get (props h a) key) (get (props h b) key) Return))
           (keys (props h a))) e) as Hrun; [|by apply Hrun].
    assert (∀ key, key ∈ keys (props h a) -> key ∈ keys (props h a)) as Hks by done.
    revert Hks. generalize (keys (props h a)) at 1 3 4. intros ks.
    induction ks as [|key ks IHks]; intros Hks e He; [done|].
    rewrite !run_every_cons. unfold and_then at 1 3.
    destruct (decide (key ∈ keys (props h b))) as [Hkb|Hkb].
    + rewrite bool_decide_eq_true_2 by done. rewrite !run_call.
      assert (deepEqual fuel h' (get (props h a) key) (get (props h b) key) e
              = deepEqual fuel h (get (props h a) key) (get (props h b) key) e) as ->.
      { apply IH; [by apply Hle|].
        intros l [Hl|Hl]; apply Hagree.
        - left. eapply props_reach; [|exact Hl]. apply Hks. by left.
        - right. eapply props_reach; [exact Hkb|exact Hl]. }
      pose proof (deepEqual_le fuel h (get (props h a) key) (get (props h b) key) e)
        as Hstep.
      destruct (deepEqual fuel h (get (props h a) key) (get (props h b) key) e)
        as [[[|]| |] e']; try done.
      apply IHks; [|by etrans]. intros k Hk. apply Hks. by right.
    + by rewrite bool_decide_eq_false_2.
Qed.

Lemma comparison_is_local_witness :
  deepEqual 3 (<[99 := array [VRef 99]]> demo_heap) (VRef 5) (VRef 8) new_DeepEqualEngine
  = deepEqual 3 demo_heap (VRef 5) (VRef 8) new_DeepEqualEngine.
Proof.
  refine (comparison_is_local demo_heap (<[99 := array [VRef 99]]> demo_heap)
            3 (VRef 5) (VRef 8) new_DeepEqualEngine eq_refl _).
  intros l Hl.
  assert (l ≠ 99) as Hne.
  { destruct Hl as [Hr|Hr]; inversion Hr as [|? c ? Hc Hr']; subst; try done.
    - change (children (deref demo_heap 5)) with [int 4] in Hc.
      apply list_elem_of_singleton in Hc as ->. inversion Hr'.
    - change (children (deref demo_heap 8)) with [int 4] in Hc.
      apply list_elem_of_singleton in Hc as ->. inversion Hr'. }
  unfold deref. by rewrite lookup_insert_ne.
Defined.

Lemma similar_refl h n : ∀ v, ¬ reach h v NaN -> similar n h v v.
Proof.
  destruct n as [|n]; intros v Hnan; [done|]. simpl.
  destruct (shape_of h v); [|by left..].
  apply strict_eq_refl. intros ->. apply Hnan. constructor.
Qed.

Lemma run_pure_steps_true_or_fuel (rec : value -> value -> outcome) steps :
  (∀ present x y, (present, (x, y)) ∈ steps ->
     present = true ∧ (rec x y = Ret true ∨ rec x y = OutOfFuel)) ->
  run_pure rec (every step_prog steps) = Ret true
  ∨ run_pure rec (every step_prog steps) = OutOfFuel.
Proof.
  induction steps as [|[p [x y]] steps IH]; intros Hall; [by left|].
  rewrite run_pure_every_cons, run_pure_step.
  destruct (Hall p x y) as [-> [->| ->]]; [by left| |by right].
  apply IH. intros. apply Hall. by right.
Qed.

Lemma elements_at_index h b i :
  i < length (items h b) -> elements h b !! i = Some (at_index (items h b) i).
Proof.
  intros Hi. destruct (lookup_lt_is_Some_2 (items h b) i Hi) as [slot Hslot].
  unfold elements, at_index. rewrite list_lookup_fmap, Hslot. by destruct slot.
Qed.

Lemma elements_no_NaN h a x : ¬ reach h a NaN -> x ∈ elements h a -> ¬ reach h x NaN.
Proof.
  intros Hnan [i Hi]%list_elem_of_lookup Hr.
  unfold elements in Hi. rewrite list_lookup_fmap in Hi.
  destruct (items h a !! i) as [[y|]|] eqn:Hy; simplify_eq/=.
  - apply Hnan. by eapply slot_reach.
  - by apply reach_undefined in Hr.
Qed.

Lemma structEqual_complete h :
  ∀ fuel a b, ¬ reach h a NaN -> similar fuel h a b ->
    structEqual fuel h a b = Ret true ∨ structEqual fuel h a b = OutOfFuel.
Proof.
  induction fuel as [|fuel IH]; intros a b Hnan Hsim; [by right|].
  cbn [structEqual similar] in *.
  destruct (shape_of h a) eqn:Ha; simpl comparator_for.
  - left. simpl. by rewrite Hsim.
  - assert (shape_of h b = Sequence
            ∧ Forall2 (similar fuel h) (elements h a) (elements h b)) as [Hb Hitems].
    { destruct Hsim as [<-|?]; [|done]. split; [done|].
      apply Forall_Forall2_diag, Forall_forall. intros x Hx.
      apply similar_refl. by eapply elements_no_NaN. }
    assert (length (items h a) = length (items h b)) as Hlen.
    { apply Forall2_length in Hitems. unfold elements in Hitems.
      by rewrite !length_fmap in Hitems. }
    rewrite array_compare_steps by done.
    rewrite (proj2 (shape_of_isArray h b) Hb), Hlen, Nat.eqb_refl.
    cbn [andb]. apply run_pure_steps_true_or_fuel.
    intros present x y Hin. unfold array_steps in Hin.
    apply list_elem_of_fmap in Hin as ([i x0] & [= -> -> ->] & Hin).
    split; [done|].
    apply entries_lookup in Hin.
    assert (i < length (items h a)) as Hi by eauto using lookup_lt_Some.
    apply IH.
    + intros Hr. apply Hnan. by eapply slot_reach.
    + eapply (Forall2_lookup_lr _ _ _ i); [exact Hitems| |].
      * rewrite elements_at_index by done. unfold at_index. by rewrite Hin.
      * apply elements_at_index. lia.
  - assert (shape_of h b = Mapping
            ∧ keys (props h a) ≡ₚ keys (props h b)
            ∧ ∀ key, key ∈ keys (props h a) ->
                similar fuel h (get (props h a) key) (get (props h b) key))
      as (Hb & Hperm & Hvals).
    { destruct Hsim as [<-|?]; [|done]. split; [done|]. split; [done|].
      intros key Hkey. apply similar_refl. intros Hr. apply Hnan.
      by eapply props_reach. }
    rewrite object_compare_steps by done.
    rewrite (proj2 (shape_of_isPlainObject h b) Hb), (Permutation_length Hperm),
      Nat.eqb_refl.
    cbn [andb]. apply run_pure_steps_true_or_fuel.
    intros present x y Hin. unfold object_steps in Hin.
    apply list_elem_of_fmap in Hin as (key & [= -> -> ->] & Hin).
    split; [apply bool_decide_eq_true; by rewrite <- Hperm|].
    apply IH; [|by apply Hvals].
    intros Hr. apply Hnan. by eapply props_reach.
Qed.

(** X8.  No false negative on trees.  Let [a] be a tree in which no [NaN]
    occurs and none of whose cells is in the guard set.  If [a] and [b]
    agree to every depth, then [deepEqual(a, b)] returns [true] in the
    engine of the constructor. *)
Theorem similar_tree_compares_true h a b fp this :
  distinct_keys h -> builtin this -> tree h a fp -> fp ## visited this ->
  ¬ reach h a NaN -> (∀ n, similar n h a b) ->
  ∀ fuel, unvisited h this < fuel -> (deepEqual fuel h a b this).1 = Ret true.
Proof.
  intros Hnd Hb Ht Hdisj Hnan Hsim fuel Hfuel.
  destruct (deepEqual_total fuel h a b this Hb Hfuel) as (r & this' & Hr).
  destruct (tree_deepEqual fuel h Hnd a b this fp Hb Ht Hdisj) as [Hs _].
  rewrite Hr in Hs |- *. simpl in *.
  destruct (structEqual_complete h fuel a b Hnan (Hsim fuel)) as [Hc|Hc];
    congruence.
Qed.

Lemma similar_tree_compares_true_witness :
  (deepEqual 16 demo_heap (VRef 3) (VRef 3) new_DeepEqualEngine).1 = Ret true.
Proof.
  assert (¬ reach demo_heap (VRef 3) NaN) as Hnan.
  { apply no_NaN_list_to_map; [done|].
    repeat constructor; simpl; intros Hin;
      repeat (apply elem_of_cons in Hin as [Hin|Hin]; [by vm_compute in Hin|]);
      by apply elem_of_nil in Hin. }
  refine (similar_tree_compares_true demo_heap (VRef 3) (VRef 3) _
            new_DeepEqualEngine _ eq_refl _ _ Hnan _ 16 _).
  - apply distinct_keys_list_to_map.
    refine (bool_decide_unpack _ _). vm_compute. exact I.
  - repeat first
      [ apply tree_primitive; by intros ?
      | eapply tree_ref; [vm_compute children|]
      | eapply trees_cons
      | apply trees_nil ]; set_solver.
  - simpl. set_solver.
  - intros n. by apply similar_refl.
  - vm_compute. lia.
Defined.
